(** * chatApp_socket.io: the clustered chat server of [src/index.ts]

    A shallow embedding of the worker's message log (the SQLite table
    [messages]), of the two socket handlers registered on every connection
    (the ["chat message"] handler and the recovery replay), and of the
    primary's fork loop, followed by the properties the design document
    states about them.

    Modelling conventions.
    - The table is a list of rows in rowid order, the order in which SQLite
      stores and scans a rowid table; [sqlite_sequence] is the counter that
      [AUTOINCREMENT] keeps beside it.
    - A handler runs to completion: every [await] of the source is one
      atomic step on the database. The one interleaving looked at, a message
      stored while a replay is pending, splits the listener at its [await].
    - Faults of the storage layer (busy, I/O, corruption, ...) are inputs:
      each database call takes the error, if any, that the engine raises.
      [db.each] can fail in two ways, by rejecting its promise or by handing
      the error to the row callback; both are inputs of the replay. *)

From Stdlib Require Import ZArith List String Ascii Bool Lia Sorted.
From Stdlib Require Import DecimalString DecimalN.
Import ListNotations.
Open Scope string_scope.
Open Scope list_scope.
Open Scope Z_scope.

(** ** The message log *)

(** One row of [CREATE TABLE messages (id INTEGER PRIMARY KEY AUTOINCREMENT,
    client_offset TEXT UNIQUE, content TEXT)]. *)
Record TableRow := mkRow {
  row_id : Z;
  row_client_offset : string;
  row_content : string
}.

(** [interface MessageRow { id: number; content: string }], the projection
    read back by the replay query. *)
Record MessageRow := mkMessageRow {
  id : Z;
  content : string
}.

Record Database := mkDatabase {
  messages : list TableRow;
  sqlite_sequence : Z
}.

(** The table right after [CREATE TABLE IF NOT EXISTS] on a fresh file. *)
Definition empty_db : Database := mkDatabase [] 0.

(** The error object a rejected database call carries: the primary result
    code in [errno] and the engine's text. *)
Record SqliteError := mkError {
  errno : Z;
  message : string
}.

Definition SQLITE_CONSTRAINT : Z := 19.

(** What the engine raises when the [UNIQUE] column rejects the row. *)
Definition unique_client_offset : SqliteError :=
  mkError SQLITE_CONSTRAINT
    "SQLITE_CONSTRAINT: UNIQUE constraint failed: messages.client_offset".

(** The value [db.run] resolves to. *)
Record RunResult := mkRunResult {
  lastID : Z;
  changes : Z
}.

Definition has_client_offset (clientOffset : string) (rows : list TableRow) : bool :=
  existsb (fun r => String.eqb (row_client_offset r) clientOffset) rows.

Fixpoint max_rowid (rows : list TableRow) : Z :=
  match rows with
  | [] => 0
  | r :: rest => Z.max (row_id r) (max_rowid rest)
  end.

(** The rowid [AUTOINCREMENT] picks: one more than the largest rowid the
    table has ever held. *)
Definition next_rowid (d : Database) : Z :=
  Z.max (sqlite_sequence d) (max_rowid (messages d)) + 1.

(** [INSERT INTO messages (content, client_offset) VALUES (?, ?)] as one
    statement: it either fails as a whole, leaving the table and the counter
    as they were, or appends one row. *)
Definition insert_message (fault : option SqliteError) (msg clientOffset : string)
    (d : Database) : (SqliteError + RunResult) * Database :=
  match fault with
  | Some e => (inl e, d)
  | None =>
      if has_client_offset clientOffset (messages d)
      then (inl unique_client_offset, d)
      else
        let i := next_rowid d in
        (inr (mkRunResult i 1),
         mkDatabase (messages d ++ [mkRow i clientOffset msg]) i)
  end.

(** The faults the storage layer adds to an [INSERT] (busy, I/O, corruption,
    full, ...). On this table the one constraint an [INSERT] can violate is
    the [UNIQUE] one on [client_offset], which [insert_message] raises
    itself; what is injected carries another result code. *)
Definition storage_fault (fault : option SqliteError) : Prop :=
  forall e, fault = Some e -> errno e <> SQLITE_CONSTRAINT.

(** [SELECT id, content FROM messages WHERE id > ?]: a scan of the table in
    rowid order. *)
Definition select_after (offset : Z) (d : Database) : list MessageRow :=
  map (fun r => mkMessageRow (row_id r) (row_content r))
      (filter (fun r => offset <? row_id r) (messages d)).

(** ** Sockets and what a handler does to the outside *)

(** The fields of a socket.io [Socket] the handlers read: [socket.id],
    [socket.recovered] and [socket.handshake.auth.serverOffset]. *)
Record Socket := mkSocket {
  sid : string;
  recovered : bool;
  serverOffset : option Z
}.

Inductive Effect :=
| IoEmit (msg : string) (seq : Z)
    (* io.emit("chat message", msg, seq) *)
| SocketEmit (to : string) (msg : string) (seq : Z)
    (* socket.emit("chat message", msg, seq) on the socket with that id *)
| Callback (to : string)
    (* the acknowledgment callback of a message received on that socket *)
| SocketOn (on : string) (event : string)
    (* socket.on(event, ...) *)
| ConsoleLog (text : string)
| ConsoleError (text : string) (e : SqliteError).

Record World := mkWorld {
  db : Database;
  trace : list Effect
}.

(** ** A state and exception monad for the async handlers *)

(** How a handler can fail to run to its end. *)
Inductive Failure :=
| Rejected (e : SqliteError)
    (* an awaited promise rejects with [e]; a [catch (e)] around it gets [e] *)
| UncaughtTypeError.
    (* thrown inside a callback the library runs, outside every promise: no
       [catch] of the program sees it, and the process exits *)

Definition M (A : Type) : Type := World -> (Failure + A) * World.

Definition ret {A} (a : A) : M A := fun w => (inr a, w).

Definition bind {A B} (m : M A) (k : A -> M B) : M B :=
  fun w =>
    match m w with
    | (inl e, w') => (inl e, w')
    | (inr a, w') => k a w'
    end.

Definition try_catch {A} (body : M A) (handler : SqliteError -> M A) : M A :=
  fun w =>
    match body w with
    | (inl (Rejected e), w') => handler e w'
    | (inl UncaughtTypeError, w') => (inl UncaughtTypeError, w')
    | (inr a, w') => (inr a, w')
    end.

Definition throw_uncaught {A} : M A := fun w => (inl UncaughtTypeError, w).

Notation "x <- c1 ;; c2" := (bind c1 (fun x => c2))
  (at level 61, c1 at next level, right associativity).
Notation "c1 ;; c2" := (bind c1 (fun _ => c2))
  (at level 61, right associativity).

Definition emit_effect (e : Effect) : M unit :=
  fun w => (inr tt, mkWorld (db w) (trace w ++ [e])).

Definition io_emit (msg : string) (seq : Z) : M unit := emit_effect (IoEmit msg seq).
Definition socket_emit (socket : Socket) (msg : string) (seq : Z) : M unit :=
  emit_effect (SocketEmit (sid socket) msg seq).
Definition callback (socket : Socket) : M unit := emit_effect (Callback (sid socket)).
Definition socket_on (socket : Socket) (event : string) : M unit :=
  emit_effect (SocketOn (sid socket) event).
Definition console_log (text : string) : M unit := emit_effect (ConsoleLog text).
Definition console_error (text : string) (e : SqliteError) : M unit :=
  emit_effect (ConsoleError text e).

(** [await db.run("INSERT ...", msg, clientOffset)] *)
Definition db_run (fault : option SqliteError) (msg clientOffset : string) : M RunResult :=
  fun w =>
    match insert_message fault msg clientOffset (db w) with
    | (inl e, d) => (inl (Rejected e), mkWorld d (trace w))
    | (inr r, d) => (inr r, mkWorld d (trace w))
    end.

Fixpoint for_each {A} (f : A -> M unit) (l : list A) : M unit :=
  match l with
  | [] => ret tt
  | x :: rest => f x ;; for_each f rest
  end.

(** How the replay read can fail: the promise of [db.each] rejects, or the
    statement fails while it steps, after [delivered] rows, and the error is
    handed to the row callback with no row. *)
Inductive ReadFault :=
| ReadRejects (e : SqliteError)
| RowError (delivered : nat) (e : SqliteError).

(** [await db.each("SELECT ...", [offset], (err, row) => ...)]: the row
    callback runs as [(null, row)] once per selected row; an error met while
    stepping is passed to it as [(err, null)]. *)
Definition db_each (fault : option ReadFault) (offset : Z)
    (on_row : option SqliteError -> option MessageRow -> M unit) : M unit :=
  match fault with
  | None =>
      fun w => for_each (fun row => on_row None (Some row))
                        (select_after offset (db w)) w
  | Some (ReadRejects e) => fun w => (inl (Rejected e), w)
  | Some (RowError delivered e) =>
      fun w =>
        (for_each (fun row => on_row None (Some row))
                  (firstn delivered (select_after offset (db w))) ;;
         on_row (Some e) None) w
  end.

(** ** The handlers of [io.on("connection", ...)] *)

(** [socket.on("chat message", async (msg, clientOffset, callback) => ...)] *)
Definition chat_message (socket : Socket) (fault : option SqliteError)
    (msg clientOffset : string) : M unit :=
  try_catch
    (result <- db_run fault msg clientOffset ;;
     io_emit msg (lastID result) ;;
     callback socket)
    (fun e =>
       if errno e =? 19 then callback socket
       else console_error "Database error:" e).

(** [socket.handshake.auth.serverOffset || 0] *)
Definition offset_or_zero (o : option Z) : Z :=
  match o with
  | Some n => if n =? 0 then 0 else n
  | None => 0
  end.

(** [(_err, row) => { socket.emit("chat message", row.content, row.id); }]:
    the error argument is ignored, and reading [row.content] of a [null] row
    throws inside the library's callback. *)
Definition replay_row (socket : Socket) (_err : option SqliteError)
    (row : option MessageRow) : M unit :=
  match row with
  | Some r => socket_emit socket (content r) (id r)
  | None => throw_uncaught
  end.

(** The body of the connection listener. *)
Definition on_connection (socket : Socket) (read_fault : option ReadFault) : M unit :=
  console_log ("New client connected: " ++ sid socket) ;;
  socket_on socket "chat message" ;;
  (if negb (recovered socket) then
     try_catch
       (db_each read_fault (offset_or_zero (serverOffset socket)) (replay_row socket))
       (fun e => console_error "Error recovering messages:" e)
   else ret tt) ;;
  socket_on socket "disconnect".

(** The listener cut at its [await]: what runs when the connection arrives,
    and what runs once the awaited read is carried out. *)
Definition connection_begin (socket : Socket) : M unit :=
  console_log ("New client connected: " ++ sid socket) ;;
  socket_on socket "chat message".

Definition connection_resume (socket : Socket) (read_fault : option ReadFault) : M unit :=
  (if negb (recovered socket) then
     try_catch
       (db_each read_fault (offset_or_zero (serverOffset socket)) (replay_row socket))
       (fun e => console_error "Error recovering messages:" e)
   else ret tt) ;;
  socket_on socket "disconnect".

(** Running a handler on a database, with an empty trace to start from. *)
Definition run {A} (m : M A) (d : Database) : (Failure + A) * World :=
  m (mkWorld d []).

Definition effects {A} (m : M A) (d : Database) : list Effect := trace (snd (run m d)).
Definition db_after {A} (m : M A) (d : Database) : Database := db (snd (run m d)).
Definition outcome {A} (m : M A) (d : Database) : Failure + A := fst (run m d).

(** The trace of the connection listener in closed form, for a read that
    succeeds or rejects; [on_connection_run] below shows it is what
    [on_connection] leaves behind. *)
Definition connection_effects (socket : Socket) (read_fault : option SqliteError)
    (d : Database) : list Effect :=
  [ConsoleLog ("New client connected: " ++ sid socket);
   SocketOn (sid socket) "chat message"]
  ++ (if recovered socket then []
      else match read_fault with
           | Some e => [ConsoleError "Error recovering messages:" e]
           | None =>
               map (fun row => SocketEmit (sid socket) (content row) (id row))
                   (select_after (offset_or_zero (serverOffset socket)) d)
           end)
  ++ [SocketOn (sid socket) "disconnect"].

(** ** The event loop of a worker *)

(** What the event loop of a worker dispatches while the worker lives, with
    the storage fault (if any) the database call of that handler meets; for
    a connection, the error its read rejects with. A read that hands its
    error to the row callback ends the process and is not an event of such a
    run: see [on_connection] at [RowError]. *)
Inductive Event :=
| ChatMessage (socket : Socket) (fault : option SqliteError) (msg clientOffset : string)
| Connection (socket : Socket) (read_fault : option SqliteError).

Definition handle (ev : Event) : M unit :=
  match ev with
  | ChatMessage socket fault msg clientOffset => chat_message socket fault msg clientOffset
  | Connection socket read_fault =>
      on_connection socket (option_map ReadRejects read_fault)
  end.

(** The handlers of a run, each to its end and one after the other. How
    handlers overlap at their [await]s is not followed here; the one overlap
    looked at is stated with [connection_begin] and [connection_resume]. *)
Definition serve (evs : list Event) : M unit := for_each handle evs.

(** The inserts alone: every statement of a run in order, with what each
    resolved or rejected to. *)
Record Request := mkRequest {
  req_fault : option SqliteError;
  req_msg : string;
  req_clientOffset : string
}.

Fixpoint submit_all (reqs : list Request) (d : Database)
    : list (SqliteError + RunResult) * Database :=
  match reqs with
  | [] => ([], d)
  | q :: rest =>
      let '(r, d1) := insert_message (req_fault q) (req_msg q) (req_clientOffset q) d in
      let '(rs, d2) := submit_all rest d1 in
      (r :: rs, d2)
  end.

(** The sequence numbers handed out by the statements that inserted a row. *)
Fixpoint assigned_ids (rs : list (SqliteError + RunResult)) : list Z :=
  match rs with
  | [] => []
  | inr r :: rest => lastID r :: assigned_ids rest
  | inl _ :: rest => assigned_ids rest
  end.

(** The sequence number a call yields to its caller, if it yields one. *)
Definition sequence_of (r : SqliteError + RunResult) : option Z :=
  match r with
  | inr res => Some (lastID res)
  | inl _ => None
  end.

Definition rows_with_token (clientOffset : string) (d : Database) : list TableRow :=
  filter (fun r => String.eqb (row_client_offset r) clientOffset) (messages d).

(** The states of the log the program can produce: the fresh table, and any
    state an [INSERT] statement leaves behind. *)
Inductive reachable : Database -> Prop :=
| reachable_empty : reachable empty_db
| reachable_insert d fault msg clientOffset :
    reachable d ->
    reachable (snd (insert_message fault msg clientOffset d)).

Definition ids_ascending (d : Database) : Prop :=
  StronglySorted Z.lt (map row_id (messages d)).

Definition tokens_unique (d : Database) : Prop :=
  NoDup (map row_client_offset (messages d)).

Definition ids_bounded (d : Database) : Prop :=
  Forall (fun r => 0 < row_id r <= sqlite_sequence d) (messages d).

(** ** The sessions of the cluster *)

(** A connected client as the cluster sees it: the events pushed to it, the
    acknowledgments it got back, and the listeners its socket carries. *)
Record Session := mkSession {
  session_id : string;
  inbox : list (string * Z);
  acks : nat;
  listeners : list string
}.

Definition Worker := list Session.
Definition Cluster := list Worker.

Definition push (m : string * Z) (s : Session) : Session :=
  mkSession (session_id s) (inbox s ++ [m]) (acks s) (listeners s).

(** What one effect of a handler does to one session. [io.emit] with the
    cluster adapter reaches the sockets of every worker; [socket.emit] and
    the acknowledgment reach the one socket they belong to. *)
Definition deliver (e : Effect) (s : Session) : Session :=
  match e with
  | IoEmit msg seq => push (msg, seq) s
  | SocketEmit to msg seq =>
      if String.eqb to (session_id s) then push (msg, seq) s else s
  | Callback to =>
      if String.eqb to (session_id s)
      then mkSession (session_id s) (inbox s) (S (acks s)) (listeners s)
      else s
  | SocketOn on event =>
      if String.eqb on (session_id s)
      then mkSession (session_id s) (inbox s) (acks s) (listeners s ++ [event])
      else s
  | ConsoleLog _ => s
  | ConsoleError _ _ => s
  end.

Definition apply_effect (e : Effect) (c : Cluster) : Cluster :=
  map (map (deliver e)) c.

Definition apply_trace (tr : list Effect) (c : Cluster) : Cluster :=
  fold_left (fun c e => apply_effect e c) tr c.

(** Projections of a trace. *)
Definition is_broadcast (e : Effect) : bool :=
  match e with IoEmit _ _ => true | _ => false end.
Definition is_callback (e : Effect) : bool :=
  match e with Callback _ => true | _ => false end.
Definition is_replay (e : Effect) : bool :=
  match e with SocketEmit _ _ _ => true | _ => false end.
Definition is_logged_error (e : Effect) : bool :=
  match e with ConsoleError _ _ => true | _ => false end.

Definition replayed (tr : list Effect) : list (string * Z) :=
  flat_map (fun e => match e with SocketEmit _ m q => [(m, q)] | _ => [] end) tr.

Definition broadcasts (tr : list Effect) : list (string * Z) :=
  flat_map (fun e => match e with IoEmit m q => [(m, q)] | _ => [] end) tr.

(** ** The primary and the port of each worker *)

(** [Number.prototype.toString] on an integer. *)
Definition toString (n : Z) : string := NilZero.string_of_int (Z.to_int n).

Definition is_white_space (c : ascii) : bool :=
  match c with
  | " "%char | "009"%char | "010"%char | "011"%char | "012"%char | "013"%char => true
  | _ => false
  end.

Fixpoint trim_start (s : string) : string :=
  match s with
  | String c rest => if is_white_space c then trim_start rest else s
  | EmptyString => s
  end.

Definition digit_of (c : ascii) : option N :=
  let n := N_of_ascii c in
  if ((48 <=? n) && (n <=? 57))%N then Some (n - 48)%N else None.

Fixpoint digits_value (s : string) (acc : N) : N :=
  match s with
  | String c rest =>
      match digit_of c with
      | Some k => digits_value rest (10 * acc + k)%N
      | None => acc
      end
  | EmptyString => acc
  end.

Definition starts_with_digit (s : string) : bool :=
  match s with
  | String c _ => match digit_of c with Some _ => true | None => false end
  | EmptyString => false
  end.

(** [parseInt(s, 10)]; [None] stands for [NaN]. *)
Definition parseInt (s : string) : option Z :=
  let t := trim_start s in
  let '(sign, u) :=
    match t with
    | String "-"%char rest => (-1, rest)
    | String "+"%char rest => (1, rest)
    | _ => (1, t)
    end in
  if starts_with_digit u then Some (sign * Z.of_N (digits_value u 0)) else None.

(** [process.env.PORT || "3000"] *)
Definition env_or (v : option string) (fallback : string) : string :=
  match v with
  | Some EmptyString => fallback
  | Some s => s
  | None => fallback
  end.

(** The primary while it forks: its own [process.env.PORT], and for each
    worker forked so far the [PORT] that worker inherited. *)
Record Primary := mkPrimary {
  env_PORT : option string;
  forked : list (option string)
}.

Definition set_PORT (v : string) (p : Primary) : Primary :=
  mkPrimary (Some v) (forked p).

Definition cluster_fork (p : Primary) : Primary :=
  mkPrimary (env_PORT p) (forked p ++ [env_PORT p]).

(** [for (let i = 0; i < numCPUs; i++) { process.env.PORT = (3000 + i).toString();
    cluster.fork(); }], entered at index [i] with [remaining] rounds to go. *)
Fixpoint fork_loop (remaining : nat) (i : Z) (p : Primary) : Primary :=
  match remaining with
  | O => p
  | S k => fork_loop k (i + 1) (cluster_fork (set_PORT (toString (3000 + i)) p))
  end.

Definition primary (numCPUs : nat) (env : option string) : Primary :=
  fork_loop numCPUs 0 (mkPrimary env []).

(** [const port = parseInt(process.env.PORT || "3000", 10)] *)
Definition worker_port (env : option string) : option Z :=
  parseInt (env_or env "3000").


(** A session after the effects of a trace, one by one. *)
Definition session_after (tr : list Effect) (s : Session) : Session :=
  fold_left (fun s e => deliver e s) tr s.

(** [n] consecutive integers from [start] on. *)
Definition consecutive_from (start : Z) (n : nat) : list Z :=
  map (fun k => start + Z.of_nat k) (seq 0 n).

(** ** Whole runs: what reaches a session, and what a run stores *)

(** The (content, sequence) pairs of a list of rows, as both the live
    broadcast and the replay present them. *)
Definition pairs_of (rows : list TableRow) : list (string * Z) :=
  map (fun r => (row_content r, row_id r)) rows.

(** The events a trace pushes to the socket with id [to]: every broadcast,
    and the [socket.emit]s addressed to it. *)
Definition delivered_to (to : string) (tr : list Effect) : list (string * Z) :=
  flat_map (fun e =>
              match e with
              | IoEmit m q => [(m, q)]
              | SocketEmit to' m q => if String.eqb to' to then [(m, q)] else []
              | _ => []
              end) tr.

(** How many times a trace invokes an acknowledgment callback of [to]. *)
Definition acknowledged (to : string) (tr : list Effect) : nat :=
  List.length
    (filter (fun e => match e with Callback to' => String.eqb to' to | _ => false end) tr).

Definition connects (to : string) (ev : Event) : bool :=
  match ev with
  | Connection socket _ => String.eqb (sid socket) to
  | ChatMessage _ _ _ _ => false
  end.

Definition sends (to : string) (ev : Event) : bool :=
  match ev with
  | ChatMessage socket _ _ _ => String.eqb (sid socket) to
  | Connection _ _ => false
  end.

(** ** Start-up of a worker *)

(** [open({ filename: "chat.db", ... })] followed by
    [CREATE TABLE IF NOT EXISTS messages (...)]: a table already in the file
    is kept as it is. *)
Definition create_table_if_not_exists (file : option Database) : Database :=
  match file with
  | Some d => d
  | None => empty_db
  end.

(** Why [main] can reject: a database call rejected, or [server.listen]
    threw on a port it does not accept. *)
Inductive StartupFailure :=
| DatabaseFailure (e : SqliteError)
| BadPort (port : option Z).

(** The ports [server.listen] accepts: the integers from 0 to 65535. For
    anything else, [NaN] included, it throws. *)
Definition valid_port (port : option Z) : bool :=
  match port with
  | Some n => (0 <=? n) && (n <=? 65535)
  | None => false
  end.

Inductive StartupEffect :=
| RouteGet (path : string)              (* app.get("/", ...) *)
| IoOnConnection                        (* io.on("connection", ...) *)
| ServerListen (port : option Z)        (* server.listen(port, ...) *)
| StartupError (f : StartupFailure)     (* console.error("Failed to start server:", err) *)
| ProcessExit (code : Z).               (* process.exit(code) *)

(** [async function main()]: the two awaited database calls, each with the
    error it may reject with, then the server set-up, which ends in
    [server.listen(port)]. *)
Definition main (open_fault exec_fault : option SqliteError)
    (file : option Database) (env : option string)
    : (StartupFailure + Database) * list StartupEffect :=
  match open_fault with
  | Some e => (inl (DatabaseFailure e), [])
  | None =>
      match exec_fault with
      | Some e => (inl (DatabaseFailure e), [])
      | None =>
          let port := worker_port env in
          if valid_port port
          then (inr (create_table_if_not_exists file),
                [RouteGet "/"; IoOnConnection; ServerListen port])
          else (inl (BadPort port), [RouteGet "/"; IoOnConnection])
      end
  end.

(** [main().catch((err) => { console.error(...); process.exit(1); })] *)
Definition worker_process (open_fault exec_fault : option SqliteError)
    (file : option Database) (env : option string)
    : option Database * list StartupEffect :=
  match main open_fault exec_fault file env with
  | (inl err, tr) => (None, tr ++ [StartupError err; ProcessExit 1])
  | (inr d, tr) => (Some d, tr)
  end.

Definition is_listen (e : StartupEffect) : bool :=
  match e with ServerListen _ => true | _ => false end.

Definition is_exit (e : StartupEffect) : bool :=
  match e with ProcessExit _ => true | _ => false end.

(** Unfolds a handler down to the world it returns. *)
Ltac run_handler :=
  unfold effects, db_after, outcome, run, chat_message, on_connection, try_catch,
    bind, db_run, db_each, io_emit, socket_emit, callback, socket_on, console_log,
    console_error, emit_effect, ret; simpl.

(** ** Concrete runs: three clients and a log of three messages *)

Definition alice : Socket := mkSocket "A" false None.
Definition bob : Socket := mkSocket "B" false (Some 1).
Definition carol : Socket := mkSocket "C" true (Some 1).

Definition three_messages : Database :=
  snd (submit_all [mkRequest None "hi" "t1"; mkRequest None "yo" "t2";
                   mkRequest None "ok" "t3"] empty_db).

Example first_message :
  run (chat_message alice None "hi" "t1") empty_db
  = (inr tt, mkWorld (mkDatabase [mkRow 1 "t1" "hi"] 1) [IoEmit "hi" 1; Callback "A"]).
Proof. reflexivity. Qed.

Example resent_message :
  effects (chat_message alice None "hi" "t1") (mkDatabase [mkRow 1 "t1" "hi"] 1)
  = [Callback "A"].
Proof. reflexivity. Qed.

Example fresh_client_replay :
  replayed (effects (on_connection alice None) three_messages)
  = [("hi", 1); ("yo", 2); ("ok", 3)].
Proof. reflexivity. Qed.

Example returning_client_replay :
  replayed (effects (on_connection bob None) three_messages) = [("yo", 2); ("ok", 3)].
Proof. reflexivity. Qed.

Example four_workers :
  map worker_port (forked (primary 4 None)) = [Some 3000; Some 3001; Some 3002; Some 3003].
Proof. vm_compute. reflexivity. Qed.

Example parseInt_examples :
  parseInt "3000" = Some 3000 /\ parseInt "  -42px" = Some (-42) /\ parseInt "abc" = None
  /\ parseInt "" = None /\ toString 3007 = "3007".
Proof. vm_compute. repeat split. Qed.

(** ** The log: what one [INSERT] does *)

Lemma insert_fault e msg clientOffset d :
  insert_message (Some e) msg clientOffset d = (inl e, d).
Proof. reflexivity. Qed.

Lemma insert_duplicate msg clientOffset d :
  has_client_offset clientOffset (messages d) = true ->
  insert_message None msg clientOffset d = (inl unique_client_offset, d).
Proof. intros H. unfold insert_message. now rewrite H. Qed.

Lemma insert_fresh msg clientOffset d :
  has_client_offset clientOffset (messages d) = false ->
  insert_message None msg clientOffset d
  = (inr (mkRunResult (next_rowid d) 1),
     mkDatabase (messages d ++ [mkRow (next_rowid d) clientOffset msg]) (next_rowid d)).
Proof. intros H. unfold insert_message. now rewrite H. Qed.

(** An [INSERT] either leaves the database as it was or appends one row
    carrying the next rowid. *)
Lemma insert_message_cases fault msg clientOffset d :
  (exists e, insert_message fault msg clientOffset d = (inl e, d))
  \/ (has_client_offset clientOffset (messages d) = false
      /\ insert_message fault msg clientOffset d
         = (inr (mkRunResult (next_rowid d) 1),
            mkDatabase (messages d ++ [mkRow (next_rowid d) clientOffset msg])
                       (next_rowid d))).
Proof.
  destruct fault as [e|].
  - left. now exists e.
  - destruct (has_client_offset clientOffset (messages d)) eqn:H.
    + left. exists unique_client_offset. now apply insert_duplicate.
    + right. split; [reflexivity | now apply insert_fresh].
Qed.

Lemma has_client_offset_In t rows :
  has_client_offset t rows = true <-> In t (map row_client_offset rows).
Proof.
  unfold has_client_offset. rewrite existsb_exists, in_map_iff. split.
  - intros [r [Hin Heq]]. apply String.eqb_eq in Heq. now exists r.
  - intros [r [Heq Hin]]. exists r. split; [assumption|]. now apply String.eqb_eq.
Qed.

Lemma has_client_offset_app t rows rows' :
  has_client_offset t (rows ++ rows')
  = has_client_offset t rows || has_client_offset t rows'.
Proof. unfold has_client_offset. apply existsb_app. Qed.

Lemma max_rowid_app rows rows' :
  max_rowid (rows ++ rows') = Z.max (max_rowid rows) (max_rowid rows').
Proof.
  induction rows as [|r rows IH]; simpl.
  - induction rows' as [|r' rows' IH']; simpl; lia.
  - rewrite IH. lia.
Qed.

Lemma max_rowid_nonneg rows : 0 <= max_rowid rows.
Proof. induction rows; simpl; lia. Qed.

Lemma max_rowid_bound rows r : In r rows -> row_id r <= max_rowid rows.
Proof.
  induction rows as [|r' rows IH]; simpl; [easy|].
  intros [-> | Hin]; [lia | specialize (IH Hin); lia].
Qed.

Lemma next_rowid_above d r : In r (messages d) -> row_id r < next_rowid d.
Proof. intros H. apply max_rowid_bound in H. unfold next_rowid. lia. Qed.

Lemma next_rowid_after_insert d t m :
  next_rowid (mkDatabase (messages d ++ [mkRow (next_rowid d) t m]) (next_rowid d))
  = next_rowid d + 1.
Proof.
  unfold next_rowid at 1. simpl. rewrite max_rowid_app. simpl.
  pose proof (max_rowid_nonneg (messages d)). unfold next_rowid. lia.
Qed.

(** ** Invariants of the log *)

Lemma StronglySorted_snoc l x :
  StronglySorted Z.lt l -> Forall (fun y => y < x) l -> StronglySorted Z.lt (l ++ [x]).
Proof.
  induction 1 as [|a l Hs IH Ha]; intros Hx; simpl.
  - repeat constructor.
  - inversion Hx; subst. constructor; [now apply IH|].
    apply Forall_app. split; [assumption | now repeat constructor].
Qed.

Lemma ids_ascending_insert fault msg t d :
  ids_ascending d -> ids_ascending (snd (insert_message fault msg t d)).
Proof.
  intros H. destruct (insert_message_cases fault msg t d) as [[e ->] | [_ ->]];
    [assumption|].
  unfold ids_ascending in *. simpl. rewrite map_app. simpl.
  apply StronglySorted_snoc; [assumption|].
  apply Forall_forall. intros y Hy. apply in_map_iff in Hy as [r [<- Hr]].
  now apply next_rowid_above.
Qed.

Lemma tokens_unique_insert fault msg t d :
  tokens_unique d -> tokens_unique (snd (insert_message fault msg t d)).
Proof.
  intros H. destruct (insert_message_cases fault msg t d) as [[e ->] | [Hf ->]];
    [assumption|].
  unfold tokens_unique in *. simpl. rewrite map_app. simpl.
  apply NoDup_app_remove_l with (l := []). simpl.
  apply (NoDup_Add (a := t) (l := map row_client_offset (messages d))).
  - rewrite <- (app_nil_r (map row_client_offset (messages d))) at 1.
    apply Add_app.
  - split; [assumption|]. intros Hin. apply has_client_offset_In in Hin. congruence.
Qed.

Lemma ids_bounded_insert fault msg t d :
  0 <= sqlite_sequence d -> ids_bounded d ->
  0 <= sqlite_sequence (snd (insert_message fault msg t d))
  /\ ids_bounded (snd (insert_message fault msg t d)).
Proof.
  intros H0 H. destruct (insert_message_cases fault msg t d) as [[e ->] | [_ ->]];
    [now split|].
  pose proof (max_rowid_nonneg (messages d)) as Hm.
  unfold ids_bounded in *. simpl. split; [unfold next_rowid; lia|].
  apply Forall_app. split.
  - eapply Forall_impl; [|exact H]. simpl. intros r Hr. unfold next_rowid. lia.
  - repeat constructor; simpl; unfold next_rowid; lia.
Qed.

Lemma reachable_invariant d :
  reachable d ->
  ids_ascending d /\ tokens_unique d /\ ids_bounded d /\ 0 <= sqlite_sequence d.
Proof.
  induction 1 as [|d fault msg t Hr (Ha & Ht & Hb & H0)].
  - repeat split; try constructor. simpl. lia.
  - destruct (ids_bounded_insert fault msg t d H0 Hb).
    repeat split; auto using ids_ascending_insert, tokens_unique_insert.
Qed.

Lemma reachable_submit_all reqs d :
  reachable d -> reachable (snd (submit_all reqs d)).
Proof.
  revert d. induction reqs as [|q reqs IH]; intros d H; simpl; [assumption|].
  destruct (insert_message (req_fault q) (req_msg q) (req_clientOffset q) d)
    as [r d1] eqn:E.
  specialize (IH d1). destruct (submit_all reqs d1) as [rs d2]. simpl in *.
  apply IH. replace d1 with (snd (insert_message (req_fault q) (req_msg q)
                                     (req_clientOffset q) d)) by now rewrite E.
  now constructor.
Qed.

(** ** The handlers, case by case *)

Lemma chat_message_fault socket e msg t d :
  run (chat_message socket (Some e) msg t) d
  = (inr tt, mkWorld d (if errno e =? 19 then [Callback (sid socket)]
                        else [ConsoleError "Database error:" e])).
Proof. run_handler. now destruct (errno e =? 19). Qed.

Lemma chat_message_duplicate socket msg t d :
  has_client_offset t (messages d) = true ->
  run (chat_message socket None msg t) d = (inr tt, mkWorld d [Callback (sid socket)]).
Proof. intros H. run_handler. unfold insert_message. now rewrite H. Qed.

Lemma chat_message_inserted socket msg t d :
  has_client_offset t (messages d) = false ->
  run (chat_message socket None msg t) d
  = (inr tt,
     mkWorld (mkDatabase (messages d ++ [mkRow (next_rowid d) t msg]) (next_rowid d))
             [IoEmit msg (next_rowid d); Callback (sid socket)]).
Proof. intros H. run_handler. unfold insert_message. now rewrite H. Qed.

(** A handler started on a trace adds its own effects behind it. *)
Lemma chat_message_frame socket fault msg t w :
  chat_message socket fault msg t w
  = (inr tt, mkWorld (snd (insert_message fault msg t (db w)))
                     (trace w ++ effects (chat_message socket fault msg t) (db w))).
Proof.
  destruct w as [d tr]. run_handler.
  destruct fault as [e|]; simpl.
  - now destruct (errno e =? 19).
  - unfold insert_message. destruct (has_client_offset t (messages d)); simpl;
      [reflexivity|]. now rewrite <- app_assoc.
Qed.

Lemma for_each_socket_emit socket rows w :
  for_each (fun row => socket_emit socket (content row) (id row)) rows w
  = (inr tt,
     mkWorld (db w)
       (trace w ++ map (fun row => SocketEmit (sid socket) (content row) (id row)) rows)).
Proof.
  revert w. induction rows as [|r rows IH]; intros [d tr]; simpl.
  - unfold ret. now rewrite app_nil_r.
  - unfold bind, socket_emit, emit_effect. simpl. rewrite IH. simpl.
    now rewrite <- app_assoc.
Qed.

Lemma on_connection_frame socket read_fault w :
  on_connection socket (option_map ReadRejects read_fault) w
  = (inr tt, mkWorld (db w) (trace w ++ connection_effects socket read_fault (db w))).
Proof.
  destruct w as [d tr]. unfold connection_effects.
  unfold on_connection, bind, console_log, socket_on, emit_effect, try_catch, db_each,
    console_error, ret. simpl.
  destruct (recovered socket); simpl.
  - now rewrite <- !app_assoc.
  - destruct read_fault as [e|]; simpl.
    + now rewrite <- !app_assoc.
    + rewrite for_each_socket_emit. simpl. now rewrite <- !app_assoc.
Qed.

Lemma on_connection_run socket read_fault d :
  run (on_connection socket (option_map ReadRejects read_fault)) d
  = (inr tt, mkWorld d (connection_effects socket read_fault d)).
Proof. unfold run. now rewrite on_connection_frame. Qed.

Lemma on_connection_run_ok socket d :
  run (on_connection socket None) d
  = (inr tt, mkWorld d (connection_effects socket None d)).
Proof. exact (on_connection_run socket None d). Qed.

(** On a recovered connection the read is never issued, so no fault of it
    matters. *)
Lemma on_connection_recovered socket read_fault d :
  recovered socket = true ->
  run (on_connection socket read_fault) d
  = (inr tt,
     mkWorld d [ConsoleLog ("New client connected: " ++ sid socket);
                SocketOn (sid socket) "chat message";
                SocketOn (sid socket) "disconnect"]).
Proof.
  intros H. unfold run, on_connection, bind, console_log, socket_on, emit_effect, ret.
  simpl. now rewrite H.
Qed.

(** ** Sessions under a trace *)

Lemma apply_trace_sessions tr c :
  apply_trace tr c = map (map (session_after tr)) c.
Proof.
  revert c. induction tr as [|e tr IH]; intros c; simpl.
  - unfold session_after. simpl. rewrite <- (map_id c) at 1.
    apply map_ext. intros w. now rewrite map_id.
  - unfold apply_trace in *. simpl. rewrite IH. unfold apply_effect.
    rewrite map_map. apply map_ext. intros w. now rewrite map_map.
Qed.

(** Nothing ever leaves an inbox. *)
Lemma inbox_deliver_grows e s m : In m (inbox s) -> In m (inbox (deliver e s)).
Proof.
  intros H. destruct e; simpl; try assumption;
    try match goal with
        | |- context [String.eqb ?a ?b] => destruct (String.eqb a b); simpl
        end; try assumption; apply in_or_app; now left.
Qed.

Lemma inbox_session_after_grows tr s m :
  In m (inbox s) -> In m (inbox (session_after tr s)).
Proof.
  revert s. induction tr as [|e tr IH]; intros s H; [assumption|].
  change (session_after (e :: tr) s) with (session_after tr (deliver e s)).
  now apply IH, inbox_deliver_grows.
Qed.

(** Every broadcast of a trace ends up in the inbox of every session. *)
Lemma broadcast_reaches tr s m q :
  In (m, q) (broadcasts tr) -> In (m, q) (inbox (session_after tr s)).
Proof.
  revert s. induction tr as [|e tr IH]; intros s H; [contradiction|].
  change (session_after (e :: tr) s) with (session_after tr (deliver e s)).
  unfold broadcasts in H. simpl in H. apply in_app_or in H as [H | H].
  - destruct e; simpl in H; try contradiction. destruct H as [H | []].
    inversion H; subst. apply inbox_session_after_grows. simpl.
    apply in_or_app. right. now left.
  - now apply IH.
Qed.

(** ** Duplicate submissions *)

Lemma filter_absent_token t rows :
  ~ In t (map row_client_offset rows) ->
  filter (fun r => String.eqb (row_client_offset r) t) rows = [].
Proof.
  induction rows as [|r rows IH]; simpl; [reflexivity|]. intros H.
  destruct (String.eqb (row_client_offset r) t) eqn:E.
  - apply String.eqb_eq in E. exfalso. apply H. now left.
  - apply IH. intros Hin. apply H. now right.
Qed.

Lemma rows_with_token_one t d :
  tokens_unique d -> has_client_offset t (messages d) = true ->
  List.length (rows_with_token t d) = 1%nat.
Proof.
  unfold tokens_unique, rows_with_token. destruct d as [rows s]. simpl. clear s.
  induction rows as [|r rows IH]; simpl; [discriminate|].
  intros Hnd Hhas. inversion Hnd as [|x l Hnotin Hnd']; subst.
  destruct (String.eqb (row_client_offset r) t) eqn:E; simpl in *.
  - apply String.eqb_eq in E. subst t. now rewrite filter_absent_token.
  - now apply IH.
Qed.

Lemma has_client_offset_after_insert msg t d :
  has_client_offset t (messages (snd (insert_message None msg t d))) = true.
Proof.
  destruct (has_client_offset t (messages d)) eqn:H.
  - now rewrite insert_duplicate.
  - rewrite insert_fresh by assumption. simpl. rewrite has_client_offset_app, H.
    simpl. now rewrite String.eqb_refl.
Qed.

(** C1, as stated, fails: resending ("t1", "hi") on the fresh log gives
    sequence 1 on the first call and no sequence at all on the second, which
    is rejected with the constraint error. *)
Lemma resend_yields_no_sequence :
  let '(r1, d1) := insert_message None "hi" "t1" empty_db in
  let '(r2, d2) := insert_message None "hi" "t1" d1 in
  sequence_of r1 = Some 1 /\ sequence_of r2 = None
  /\ sequence_of r1 <> sequence_of r2.
Proof. simpl. repeat split. discriminate. Qed.

(** C1, amended: on a log the program produced, appending token [t] twice
    leaves exactly one row for [t]; the second call is rejected with errno 19
    and carries no sequence number, it changes nothing in the store, and the
    chat handler acknowledges it without any other effect. When [t] was new,
    the first call returns the next sequence number. *)
Theorem append_twice_one_row (d : Database) (socket : Socket) (msg msg' t : string) :
  reachable d ->
  let r1 := fst (insert_message None msg t d) in
  let d1 := snd (insert_message None msg t d) in
  let r2 := fst (insert_message None msg' t d1) in
  let d2 := snd (insert_message None msg' t d1) in
  r2 = inl unique_client_offset
  /\ errno unique_client_offset = 19
  /\ sequence_of r2 = None
  /\ d2 = d1
  /\ List.length (rows_with_token t d2) = 1%nat
  /\ (has_client_offset t (messages d) = false ->
      r1 = inr (mkRunResult (next_rowid d) 1))
  /\ run (chat_message socket None msg' t) d1
     = (inr tt, mkWorld d1 [Callback (sid socket)]).
Proof.
  intros Hr r1 d1 r2 d2.
  assert (Hhas : has_client_offset t (messages d1) = true)
    by apply has_client_offset_after_insert.
  assert (E : insert_message None msg' t d1 = (inl unique_client_offset, d1))
    by now apply insert_duplicate.
  subst r2 d2. rewrite E. simpl.
  repeat split.
  - apply rows_with_token_one; [|assumption].
    apply (reachable_invariant d1). subst d1. now constructor.
  - intros Hf. subst r1. now rewrite insert_fresh.
  - now apply chat_message_duplicate.
Qed.

Lemma append_twice_one_row_witness :
  reachable empty_db
  /\ List.length
       (rows_with_token "t1"
          (snd (insert_message None "hi" "t1"
                  (snd (insert_message None "hi" "t1" empty_db))))) = 1%nat.
Proof.
  split; [constructor|].
  apply (append_twice_one_row empty_db alice "hi" "hi" "t1"). constructor.
Defined.

(** C2: when the token of a submitted message is already in the log and the
    store raises no other fault, the handler invokes the acknowledgment
    callback, leaves the log as it was, and broadcasts nothing: no inbox of
    any session of the cluster changes. *)
Theorem duplicate_acknowledged_not_broadcast
    (socket : Socket) (msg t : string) (d : Database) (c : Cluster) :
  has_client_offset t (messages d) = true ->
  run (chat_message socket None msg t) d = (inr tt, mkWorld d [Callback (sid socket)])
  /\ broadcasts (effects (chat_message socket None msg t) d) = []
  /\ map (map inbox) (apply_trace (effects (chat_message socket None msg t) d) c)
     = map (map inbox) c.
Proof.
  intros H. pose proof (chat_message_duplicate socket msg t d H) as E.
  unfold effects. rewrite E. simpl. repeat split.
  unfold apply_effect. rewrite map_map. apply map_ext. intros w.
  rewrite map_map. apply map_ext. intros s. simpl.
  now destruct (String.eqb (sid socket) (session_id s)).
Qed.

Lemma duplicate_acknowledged_not_broadcast_witness :
  has_client_offset "t1" (messages three_messages) = true
  /\ effects (chat_message alice None "hi" "t1") three_messages = [Callback "A"].
Proof.
  split; [reflexivity|].
  pose proof (duplicate_acknowledged_not_broadcast alice "hi" "t1" three_messages []
                eq_refl) as [E _].
  unfold effects. now rewrite E.
Defined.

(** C3: when the insert succeeds as a new row, the handler emits the content
    with the row's new sequence number through [io.emit] and then invokes the
    acknowledgment callback, once and in that order; in the cluster the
    message lands in the inbox of every session of every worker, the sender's
    included, and only the session the message came from is acknowledged. *)
Theorem new_insert_broadcast_then_ack
    (socket : Socket) (msg t : string) (d : Database) (c : Cluster) :
  has_client_offset t (messages d) = false ->
  let i := next_rowid d in
  let tr := effects (chat_message socket None msg t) d in
  tr = [IoEmit msg i; Callback (sid socket)]
  /\ outcome (chat_message socket None msg t) d = inr tt
  /\ messages (db_after (chat_message socket None msg t) d)
     = messages d ++ [mkRow i t msg]
  /\ List.length (filter is_callback tr) = 1%nat
  /\ apply_trace tr c
     = map (map (fun s =>
                   mkSession (session_id s) (inbox s ++ [(msg, i)])
                     (if String.eqb (sid socket) (session_id s)
                      then S (acks s) else acks s)
                     (listeners s))) c.
Proof.
  intros H i tr. pose proof (chat_message_inserted socket msg t d H) as E.
  subst tr. unfold effects, outcome, db_after. rewrite E. simpl. repeat split.
  unfold apply_effect. rewrite map_map. apply map_ext. intros w.
  rewrite map_map. apply map_ext. intros s. simpl.
  now destruct (String.eqb (sid socket) (session_id s)).
Qed.

Lemma new_insert_broadcast_then_ack_witness :
  has_client_offset "t4" (messages three_messages) = false
  /\ effects (chat_message alice None "yes" "t4") three_messages
     = [IoEmit "yes" 4; Callback "A"].
Proof.
  split; [reflexivity|].
  exact (proj1 (new_insert_broadcast_then_ack alice "yes" "t4" three_messages []
                  eq_refl)).
Defined.

(** C5: on a connection the transport reports as recovered the listener
    registers its two handlers and emits nothing to the socket, whatever the
    log holds and whatever a read would have met. *)
Theorem recovered_no_replay
    (socket : Socket) (read_fault : option ReadFault) (d : Database) :
  recovered socket = true ->
  run (on_connection socket read_fault) d
  = (inr tt,
     mkWorld d [ConsoleLog ("New client connected: " ++ sid socket);
                SocketOn (sid socket) "chat message";
                SocketOn (sid socket) "disconnect"])
  /\ replayed (effects (on_connection socket read_fault) d) = []
  /\ filter is_replay (effects (on_connection socket read_fault) d) = [].
Proof.
  intros H. unfold effects. rewrite on_connection_recovered by assumption.
  simpl. repeat split.
Qed.

Lemma recovered_no_replay_witness :
  recovered carol = true
  /\ replayed (effects (on_connection carol None) three_messages) = [].
Proof.
  split; [reflexivity|].
  exact (proj1 (proj2 (recovered_no_replay carol None three_messages eq_refl))).
Defined.

(** C6: when the insert of a submitted message fails with any error other
    than the uniqueness violation of the token (the storage layer's faults
    being what they are on this table: busy, I/O, corruption, full, never a
    constraint, since the one constraint an [INSERT] can violate here is the
    token's), the handler logs that error and does nothing else: the
    acknowledgment callback is not invoked, nothing is broadcast, and the log
    is as it was. *)
Theorem failure_other_than_duplicate_logged
    (socket : Socket) (fault : option SqliteError) (msg t : string) (d : Database)
    (e : SqliteError) :
  storage_fault fault ->
  fst (insert_message fault msg t d) = inl e ->
  e <> unique_client_offset ->
  run (chat_message socket fault msg t) d
  = (inr tt, mkWorld d [ConsoleError "Database error:" e])
  /\ filter is_callback (effects (chat_message socket fault msg t) d) = []
  /\ broadcasts (effects (chat_message socket fault msg t) d) = []
  /\ filter is_logged_error (effects (chat_message socket fault msg t) d)
     = [ConsoleError "Database error:" e].
Proof.
  intros Hs Hfail Hne.
  assert (E : fault = Some e /\ errno e <> 19).
  { destruct fault as [e'|].
    - simpl in Hfail. inversion Hfail; subst e'. split; [reflexivity|].
      now apply Hs.
    - unfold insert_message in Hfail.
      destruct (has_client_offset t (messages d)); simpl in Hfail;
        [|discriminate]. inversion Hfail. congruence. }
  destruct E as [-> He]. unfold effects. rewrite chat_message_fault.
  apply Z.eqb_neq in He. rewrite He. simpl. repeat split.
Qed.

Lemma failure_other_than_duplicate_logged_witness :
  storage_fault (Some (mkError 10 "SQLITE_IOERR: disk I/O error"))
  /\ fst (insert_message (Some (mkError 10 "SQLITE_IOERR: disk I/O error"))
            "hi" "t1" three_messages)
     = inl (mkError 10 "SQLITE_IOERR: disk I/O error")
  /\ mkError 10 "SQLITE_IOERR: disk I/O error" <> unique_client_offset
  /\ effects (chat_message alice (Some (mkError 10 "SQLITE_IOERR: disk I/O error"))
                "hi" "t1") three_messages
     = [ConsoleError "Database error:" (mkError 10 "SQLITE_IOERR: disk I/O error")].
Proof.
  assert (Hs : storage_fault (Some (mkError 10 "SQLITE_IOERR: disk I/O error"))).
  { intros e H. injection H as <-. simpl. unfold SQLITE_CONSTRAINT. lia. }
  assert (Hne : mkError 10 "SQLITE_IOERR: disk I/O error" <> unique_client_offset)
    by discriminate.
  split; [exact Hs|]. split; [reflexivity|]. split; [exact Hne|].
  pose proof (failure_other_than_duplicate_logged alice
                (Some (mkError 10 "SQLITE_IOERR: disk I/O error")) "hi" "t1"
                three_messages _ Hs eq_refl Hne) as H.
  unfold effects. now rewrite (proj1 H).
Defined.

(** ** Recovery replay *)

Lemma replayed_app tr tr' : replayed (tr ++ tr') = replayed tr ++ replayed tr'.
Proof. unfold replayed. apply flat_map_app. Qed.

Lemma replayed_socket_emits to rows :
  replayed (map (fun row => SocketEmit to (content row) (id row)) rows)
  = map (fun row => (content row, id row)) rows.
Proof. induction rows as [|r rows IH]; simpl; [reflexivity|]. now f_equal. Qed.

Lemma filter_replay_socket_emits to rows :
  filter is_replay (map (fun row => SocketEmit to (content row) (id row)) rows)
  = map (fun row => SocketEmit to (content row) (id row)) rows.
Proof. induction rows as [|r rows IH]; simpl; [reflexivity|]. now f_equal. Qed.

Lemma replayed_on_connection socket d :
  recovered socket = false ->
  replayed (effects (on_connection socket None) d)
  = map (fun r => (row_content r, row_id r))
        (filter (fun r => offset_or_zero (serverOffset socket) <? row_id r) (messages d)).
Proof.
  intros H. unfold effects. rewrite on_connection_run_ok. simpl.
  unfold connection_effects. rewrite H, !replayed_app, replayed_socket_emits. simpl.
  rewrite app_nil_r. unfold select_after. now rewrite map_map.
Qed.

Lemma ids_sorted_filter (f : TableRow -> bool) rows :
  StronglySorted Z.lt (map row_id rows) ->
  StronglySorted Z.lt (map row_id (filter f rows)).
Proof.
  induction rows as [|r rows IH]; simpl; intros H; [constructor|].
  inversion H as [|x l Hs Hall]; subst. destruct (f r); simpl; [|now apply IH].
  constructor; [now apply IH|].
  apply Forall_forall. intros y Hy. apply in_map_iff in Hy as [r' [<- Hr']].
  apply filter_In in Hr' as [Hr' _].
  rewrite Forall_forall in Hall. apply Hall. now apply in_map.
Qed.

Lemma filter_all_positive rows :
  Forall (fun r => 0 < row_id r) rows ->
  filter (fun r => 0 <? row_id r) rows = rows.
Proof.
  induction 1 as [|r rows Hr _ IH]; simpl; [reflexivity|].
  apply Z.ltb_lt in Hr. rewrite Hr. now f_equal.
Qed.

(** C4: on a connection the transport reports as not recovered, with no read
    fault, the socket is sent one event per stored row whose id is greater
    than [serverOffset || 0] and nothing else from the replay: each event
    carries the row's content and its id, the events come in ascending id
    order (so none twice), and with the offset absent or zero they are the
    whole log. *)
Theorem replay_after_last_known (socket : Socket) (d : Database) :
  reachable d ->
  recovered socket = false ->
  let o := offset_or_zero (serverOffset socket) in
  let tr := effects (on_connection socket None) d in
  filter is_replay tr
  = map (fun r => SocketEmit (sid socket) (row_content r) (row_id r))
        (filter (fun r => o <? row_id r) (messages d))
  /\ (forall m q,
        In (m, q) (replayed tr)
        <-> o < q /\ exists t, In (mkRow q t m) (messages d))
  /\ StronglySorted Z.lt (map snd (replayed tr))
  /\ (o = 0 -> replayed tr = map (fun r => (row_content r, row_id r)) (messages d)).
Proof.
  intros Hr Hrec o tr.
  destruct (reachable_invariant d Hr) as (Hasc & _ & Hb & _).
  assert (E : replayed tr
              = map (fun r => (row_content r, row_id r))
                    (filter (fun r => o <? row_id r) (messages d)))
    by now apply replayed_on_connection.
  repeat split.
  - subst tr. unfold effects. rewrite on_connection_run_ok. simpl.
    unfold connection_effects. rewrite Hrec. simpl.
    rewrite filter_app, filter_replay_socket_emits. simpl. rewrite app_nil_r.
    unfold select_after. now rewrite map_map.
  - rewrite E in H. apply in_map_iff in H as [r [Heq Hin]].
    apply filter_In in Hin as [_ Hlt]. inversion Heq; subst. now apply Z.ltb_lt.
  - rewrite E in H. apply in_map_iff in H as [r [Heq Hin]].
    apply filter_In in Hin as [Hin _]. inversion Heq; subst.
    exists (row_client_offset r). now destruct r.
  - intros [Hlt [t Hin]]. rewrite E. apply in_map_iff.
    exists (mkRow q t m). split; [reflexivity|]. apply filter_In. split; [assumption|].
    now apply Z.ltb_lt.
  - rewrite E, map_map. simpl. now apply ids_sorted_filter.
  - intros H0. rewrite E, H0. f_equal. apply filter_all_positive.
    eapply Forall_impl; [|exact Hb]. simpl. intros r Hr'. lia.
Qed.

Lemma replay_after_last_known_witness :
  reachable three_messages /\ recovered bob = false
  /\ filter is_replay (effects (on_connection bob None) three_messages)
     = [SocketEmit "B" "yo" 2; SocketEmit "B" "ok" 3].
Proof.
  assert (R : reachable three_messages)
    by (apply reachable_submit_all; constructor).
  split; [exact R|]. split; [reflexivity|].
  exact (proj1 (replay_after_last_known bob three_messages R eq_refl)).
Defined.

(** ** Sequence numbers *)

Lemma consecutive_from_S start n :
  consecutive_from start (S n) = start :: consecutive_from (start + 1) n.
Proof.
  unfold consecutive_from. simpl. f_equal; [f_equal; lia|].
  rewrite <- seq_shift, map_map. apply map_ext. intros k. lia.
Qed.

Lemma consecutive_from_lower start n :
  Forall (fun y => start <= y) (consecutive_from start n).
Proof.
  unfold consecutive_from. apply Forall_forall. intros y Hy.
  apply in_map_iff in Hy as [k [<- _]]. lia.
Qed.

Lemma consecutive_from_sorted start n :
  StronglySorted Z.lt (consecutive_from start n).
Proof.
  revert start. induction n as [|n IH]; intros start.
  - constructor.
  - rewrite consecutive_from_S. constructor; [apply IH|].
    eapply Forall_impl; [|apply consecutive_from_lower]. simpl. intros y Hy. lia.
Qed.

(** C8: over any run of inserts on one database (duplicates and faults
    mixed in), the sequence numbers returned by the statements that inserted
    a row are consecutive from the first free rowid, hence strictly
    increasing without a gap, and they are the ids of the rows appended to
    the table, in that order. *)
Theorem sequence_numbers_gapless (reqs : list Request) (d : Database) :
  let ids := assigned_ids (fst (submit_all reqs d)) in
  ids = consecutive_from (next_rowid d) (List.length ids)
  /\ StronglySorted Z.lt ids
  /\ exists added,
       messages (snd (submit_all reqs d)) = messages d ++ added
       /\ map row_id added = ids.
Proof.
  cut (let ids := assigned_ids (fst (submit_all reqs d)) in
       ids = consecutive_from (next_rowid d) (List.length ids)
       /\ exists added,
            messages (snd (submit_all reqs d)) = messages d ++ added
            /\ map row_id added = ids).
  { simpl. intros [H1 H2]. repeat split; try assumption.
    rewrite H1. apply consecutive_from_sorted. }
  revert d. induction reqs as [|q reqs IH]; intros d; simpl.
  - split; [reflexivity|]. exists []. now rewrite app_nil_r.
  - destruct (insert_message_cases (req_fault q) (req_msg q) (req_clientOffset q) d)
      as [[e E] | [_ E]]; rewrite E.
    + specialize (IH d). destruct (submit_all reqs d) as [rs d2]. simpl in *.
      exact IH.
    + match goal with
      | |- context [submit_all reqs ?d1] => specialize (IH d1); set (dd := d1) in *
      end.
      destruct (submit_all reqs dd) as [rs d2] eqn:E2. simpl in *.
      destruct IH as [IH1 [added [IH2 IH3]]]. subst dd.
      rewrite next_rowid_after_insert in IH1. split.
      * rewrite consecutive_from_S. now f_equal.
      * exists (mkRow (next_rowid d) (req_clientOffset q) (req_msg q) :: added).
        simpl in IH2. rewrite IH2, <- app_assoc. simpl. split; [reflexivity|].
        now f_equal.
Qed.

(** ** Ports: [toString] and [parseInt] *)










Lemma worker_port_default : worker_port None = Some 3000.
Proof. reflexivity. Qed.

(** ** The fork loop *)

Lemma fork_loop_forked (n : nat) (i : Z) (p : Primary) :
  forked (fork_loop n i p)
  = forked p ++ map (fun k => Some (toString (3000 + k))) (consecutive_from i n).
Proof.
  revert i p. induction n as [|n IH]; intros i p.
  - simpl. now rewrite app_nil_r.
  - cbn [fork_loop]. rewrite IH, consecutive_from_S. simpl.
    now rewrite <- app_assoc.
Qed.





(** ** The event loop *)

Lemma db_after_chat_message socket fault msg t d :
  db_after (chat_message socket fault msg t) d = snd (insert_message fault msg t d).
Proof. unfold db_after, run. now rewrite chat_message_frame. Qed.

Lemma handle_frame ev w :
  handle ev w
  = (inr tt, mkWorld (db_after (handle ev) (db w))
                     (trace w ++ effects (handle ev) (db w))).
Proof.
  destruct ev as [socket fault msg t | socket read_fault]; simpl.
  - rewrite chat_message_frame. now rewrite db_after_chat_message.
  - rewrite on_connection_frame. unfold db_after, effects.
    now rewrite on_connection_run.
Qed.

Lemma serve_frame evs w :
  serve evs w
  = (inr tt, mkWorld (db_after (serve evs) (db w))
                     (trace w ++ effects (serve evs) (db w))).
Proof.
  revert w. induction evs as [|ev evs IH]; intros [d tr].
  - unfold serve, db_after, effects, run. simpl. unfold ret. simpl.
    now rewrite app_nil_r.
  - unfold serve in *. unfold db_after, effects, run in *. cbn [for_each].
    unfold bind. rewrite !(handle_frame ev). cbn [db trace app].
    rewrite (IH (mkWorld _ (tr ++ _))). cbn [db trace].
    rewrite (IH (mkWorld _ (effects (handle ev) d))). cbn [db trace snd fst].
    unfold effects, run. now rewrite app_assoc.
Qed.

Lemma serve_cons ev evs d :
  run (serve (ev :: evs)) d
  = (inr tt,
     mkWorld (db_after (serve evs) (db_after (handle ev) d))
             (effects (handle ev) d ++ effects (serve evs) (db_after (handle ev) d))).
Proof.
  unfold run, serve. cbn [for_each]. unfold bind. rewrite handle_frame.
  cbn [db trace app]. fold (serve evs). now rewrite serve_frame.
Qed.

Lemma next_rowid_insert_le fault msg t d :
  next_rowid d <= next_rowid (snd (insert_message fault msg t d)).
Proof.
  destruct (insert_message_cases fault msg t d) as [[e ->] | [_ ->]]; simpl; [lia|].
  rewrite next_rowid_after_insert. lia.
Qed.

(** A handler only ever appends to the table, and what it appends carries a
    rowid that was free before. *)
Lemma handle_appends ev d :
  exists added,
    messages (db_after (handle ev) d) = messages d ++ added
    /\ Forall (fun r => next_rowid d <= row_id r) added
    /\ next_rowid d <= next_rowid (db_after (handle ev) d).
Proof.
  destruct ev as [socket fault msg t | socket read_fault]; simpl.
  - rewrite db_after_chat_message.
    pose proof (next_rowid_insert_le fault msg t d) as Hle.
    destruct (insert_message_cases fault msg t d) as [[e E] | [_ E]];
      rewrite E in *; simpl in *.
    + exists []. rewrite app_nil_r. repeat split; [constructor | lia].
    + eexists. split; [reflexivity|]. split; [|assumption].
      repeat constructor. simpl. lia.
  - unfold db_after. rewrite on_connection_run. simpl.
    exists []. rewrite app_nil_r. repeat split; [constructor | lia].
Qed.

Lemma serve_appends evs d :
  exists added,
    messages (db_after (serve evs) d) = messages d ++ added
    /\ Forall (fun r => next_rowid d <= row_id r) added.
Proof.
  revert d. induction evs as [|ev evs IH]; intros d.
  - exists []. rewrite app_nil_r. split; [reflexivity | constructor].
  - unfold db_after at 1. rewrite serve_cons. cbn [snd db].
    destruct (handle_appends ev d) as [a1 (E1 & F1 & Hle)].
    destruct (IH (db_after (handle ev) d)) as [a2 (E2 & F2)].
    exists (a1 ++ a2). rewrite E2, E1, <- app_assoc. split; [reflexivity|].
    apply Forall_app. split; [assumption|].
    eapply Forall_impl; [|exact F2]. simpl. intros r Hr. lia.
Qed.

Lemma broadcasts_app tr tr' : broadcasts (tr ++ tr') = broadcasts tr ++ broadcasts tr'.
Proof. unfold broadcasts. apply flat_map_app. Qed.

(** The replay up to and including a row error: the rows delivered so far
    are emitted, then the callback throws on the null row. *)
Lemma on_connection_row_error socket delivered e d :
  recovered socket = false ->
  run (on_connection socket (Some (RowError delivered e))) d
  = (inl UncaughtTypeError,
     mkWorld d
       ([ConsoleLog ("New client connected: " ++ sid socket);
         SocketOn (sid socket) "chat message"]
        ++ map (fun row => SocketEmit (sid socket) (content row) (id row))
               (firstn delivered
                  (select_after (offset_or_zero (serverOffset socket)) d)))).
Proof.
  intros H.
  unfold run, on_connection, bind, console_log, socket_on, emit_effect, try_catch,
    db_each, console_error, ret. simpl. rewrite H. simpl.
  unfold bind. rewrite for_each_socket_emit. reflexivity.
Qed.

(** C7 fails on the code when the read fails while it steps through the
    rows. The error reaches the row callback with a null row, the callback
    reads [row.content], and what it throws is outside the awaited promise:
    the [catch] does not run, so nothing is logged; the listener never
    returns and never registers its "disconnect" listener; and nothing the
    worker would have run after it is run. *)
Theorem replay_row_error_kills_worker
    (socket : Socket) (delivered : nat) (e : SqliteError) (d : Database) :
  recovered socket = false ->
  let listener := on_connection socket (Some (RowError delivered e)) in
  outcome listener d = inl UncaughtTypeError
  /\ filter is_logged_error (effects listener d) = []
  /\ ~ In (SocketOn (sid socket) "disconnect") (effects listener d)
  /\ db_after listener d = d
  /\ forall next : M unit,
       outcome (listener ;; next) d = inl UncaughtTypeError
       /\ effects (listener ;; next) d = effects listener d.
Proof.
  intros H listener. subst listener.
  pose proof (on_connection_row_error socket delivered e d H) as E.
  unfold outcome, effects, db_after. rewrite E. simpl.
  split; [reflexivity|]. split; [|split; [|split; [reflexivity|]]].
  - clear E.
    induction (firstn delivered
                 (select_after (offset_or_zero (serverOffset socket)) d));
      simpl; auto.
  - intros [Hin | [Hin | Hin]]; try discriminate.
    apply in_map_iff in Hin as [r [Hr _]]. discriminate.
  - intros next. unfold run, bind in *. now rewrite E.
Qed.

Lemma replay_row_error_kills_worker_witness :
  recovered alice = false
  /\ outcome (on_connection alice (Some (RowError 1 (mkError 10 "SQLITE_IOERR"))))
       three_messages
     = inl UncaughtTypeError.
Proof.
  split; [reflexivity|].
  exact (proj1 (replay_row_error_kills_worker alice 1 (mkError 10 "SQLITE_IOERR")
                  three_messages eq_refl)).
Defined.

(** ** Live delivery against replay *)

Lemma filter_none {A} (f : A -> bool) (l : list A) :
  Forall (fun x => f x = false) l -> filter f l = [].
Proof. induction 1 as [|x l Hx _ IH]; simpl; [reflexivity|]. now rewrite Hx. Qed.

Lemma filter_every {A} (f : A -> bool) (l : list A) :
  Forall (fun x => f x = true) l -> filter f l = l.
Proof.
  induction 1 as [|x l Hx _ IH]; simpl; [reflexivity|]. rewrite Hx. now f_equal.
Qed.

Lemma next_rowid_positive d : 0 < next_rowid d.
Proof. pose proof (max_rowid_nonneg (messages d)). unfold next_rowid. lia. Qed.

(** C10: for a message committed as a new row, the sequence number of its
    live broadcast is the id of the row the insert stored; whatever the
    worker serves afterwards, the row stays in the log, a later replay from
    any offset below that id emits the same (content, sequence) pair, no
    replay emits that sequence with another content, and a replay that takes
    the sequence as its offset emits exactly the rows stored after it. *)
Theorem live_and_replay_agree
    (socket reader : Socket) (msg t : string) (d : Database) (later : list Event) :
  has_client_offset t (messages d) = false ->
  recovered reader = false ->
  let i := next_rowid d in
  let d1 := db_after (chat_message socket None msg t) d in
  let d2 := db_after (serve later) d1 in
  let replay := replayed (effects (on_connection reader None) d2) in
  broadcasts (effects (chat_message socket None msg t) d) = [(msg, i)]
  /\ messages d1 = messages d ++ [mkRow i t msg]
  /\ In (mkRow i t msg) (messages d2)
  /\ (offset_or_zero (serverOffset reader) < i -> In (msg, i) replay)
  /\ (forall m, In (m, i) replay -> m = msg)
  /\ (serverOffset reader = Some i ->
      replay = map (fun r => (row_content r, row_id r))
                   (skipn (List.length (messages d1)) (messages d2))).
Proof.
  intros Hfresh Hrec i d1 d2 replay.
  pose proof (chat_message_inserted socket msg t d Hfresh) as E.
  assert (E1 : d1 = mkDatabase (messages d ++ [mkRow i t msg]) i)
    by (subst d1; unfold db_after; now rewrite E).
  assert (Hn1 : next_rowid d1 = i + 1)
    by (rewrite E1; apply next_rowid_after_insert).
  destruct (serve_appends later d1) as [added [E2 Hadded]]. fold d2 in E2.
  rewrite Hn1 in Hadded.
  assert (Er : replay
               = map (fun r => (row_content r, row_id r))
                     (filter (fun r => offset_or_zero (serverOffset reader) <? row_id r)
                             (messages d2)))
    by (subst replay; now apply replayed_on_connection).
  assert (M2 : messages d2 = messages d ++ mkRow i t msg :: added)
    by (rewrite E2, E1; simpl; now rewrite <- app_assoc).
  split; [unfold effects; now rewrite E|].
  split; [now rewrite E1|].
  split; [rewrite M2; apply in_or_app; right; now left|].
  split; [|split].
  - intros Hlt. rewrite Er. apply in_map_iff. exists (mkRow i t msg).
    split; [reflexivity|]. apply filter_In. split.
    + rewrite M2. apply in_or_app. right. now left.
    + now apply Z.ltb_lt.
  - intros m Hin. rewrite Er in Hin. apply in_map_iff in Hin as [r [Heq Hr]].
    apply filter_In in Hr as [Hr _]. inversion Heq; subst m.
    rewrite M2 in Hr. apply in_app_or in Hr as [Hr | [Hr | Hr]].
    + apply next_rowid_above in Hr. fold i in Hr. lia.
    + now subst r.
    + rewrite Forall_forall in Hadded. specialize (Hadded r Hr). lia.
  - intros Hoff. rewrite Er, Hoff. simpl.
    pose proof (next_rowid_positive d) as Hpos. fold i in Hpos.
    replace (i =? 0) with false by (symmetry; apply Z.eqb_neq; lia).
    rewrite E2, skipn_app, skipn_all, Nat.sub_diag. simpl.
    rewrite filter_app. rewrite filter_none, filter_every; [reflexivity| |].
    + eapply Forall_impl; [|exact Hadded]. simpl. intros r Hr. apply Z.ltb_lt. lia.
    + rewrite E1. simpl. apply Forall_app. split.
      * apply Forall_forall. intros r Hr. apply next_rowid_above in Hr. fold i in Hr.
        apply Z.ltb_ge. lia.
      * repeat constructor. simpl. apply Z.ltb_ge. lia.
Qed.

Lemma live_and_replay_agree_witness :
  has_client_offset "t4" (messages three_messages) = false
  /\ recovered bob = false
  /\ In ("yes", 4)
        (replayed
           (effects (on_connection bob None)
              (db_after (serve [ChatMessage bob None "more" "t5"])
                 (db_after (chat_message alice None "yes" "t4") three_messages)))).
Proof.
  split; [reflexivity|]. split; [reflexivity|].
  apply (live_and_replay_agree alice bob "yes" "t4" three_messages
           [ChatMessage bob None "more" "t5"] eq_refl eq_refl).
  vm_compute. reflexivity.
Defined.

(** ** Further properties of the handlers *)

Lemma chat_message_cases socket fault msg t d :
  run (chat_message socket fault msg t) d = (inr tt, mkWorld d [Callback (sid socket)])
  \/ (exists e, fault = Some e /\ errno e <> 19
                /\ run (chat_message socket fault msg t) d
                   = (inr tt, mkWorld d [ConsoleError "Database error:" e]))
  \/ (fault = None /\ has_client_offset t (messages d) = false
      /\ run (chat_message socket fault msg t) d
         = (inr tt,
            mkWorld (mkDatabase (messages d ++ [mkRow (next_rowid d) t msg])
                                (next_rowid d))
                    [IoEmit msg (next_rowid d); Callback (sid socket)])).
Proof.
  destruct fault as [e|].
  - rewrite chat_message_fault. destruct (errno e =? 19) eqn:E.
    + now left.
    + right. left. exists e. apply Z.eqb_neq in E. now repeat split.
  - destruct (has_client_offset t (messages d)) eqn:H.
    + left. now apply chat_message_duplicate.
    + right. right. repeat split. now apply chat_message_inserted.
Qed.

Lemma broadcasts_connection_effects socket read_fault d :
  broadcasts (connection_effects socket read_fault d) = [].
Proof.
  unfold connection_effects. rewrite !broadcasts_app. simpl.
  destruct (recovered socket); [reflexivity|].
  destruct read_fault as [e|]; [reflexivity|]. rewrite app_nil_r.
  induction (select_after (offset_or_zero (serverOffset socket)) d); simpl; auto.
Qed.

(** One event either leaves the table alone and broadcasts nothing, or
    appends one row and broadcasts that row. *)
Lemma handle_cases ev d :
  (db_after (handle ev) d = d /\ broadcasts (effects (handle ev) d) = [])
  \/ (exists msg t,
        db_after (handle ev) d
        = mkDatabase (messages d ++ [mkRow (next_rowid d) t msg]) (next_rowid d)
        /\ broadcasts (effects (handle ev) d) = [(msg, next_rowid d)]).
Proof.
  destruct ev as [socket fault msg t | socket read_fault]; simpl.
  - unfold db_after, effects.
    destruct (chat_message_cases socket fault msg t d)
      as [E | [[e (_ & _ & E)] | (_ & _ & E)]]; rewrite E; simpl.
    + now left.
    + now left.
    + right. now exists msg, t.
  - left. unfold db_after, effects. rewrite on_connection_run. simpl.
    split; [reflexivity | apply broadcasts_connection_effects].
Qed.

Lemma effects_serve_cons ev evs d :
  effects (serve (ev :: evs)) d
  = effects (handle ev) d ++ effects (serve evs) (db_after (handle ev) d).
Proof. unfold effects at 1. now rewrite serve_cons. Qed.

Lemma db_after_serve_cons ev evs d :
  db_after (serve (ev :: evs)) d = db_after (serve evs) (db_after (handle ev) d).
Proof. unfold db_after at 1. now rewrite serve_cons. Qed.

Lemma serve_nil d : run (serve []) d = (inr tt, mkWorld d []).
Proof. reflexivity. Qed.

(** What a run stores is what it broadcasts. *)
Lemma serve_added evs d :
  exists added,
    messages (db_after (serve evs) d) = messages d ++ added
    /\ pairs_of added = broadcasts (effects (serve evs) d)
    /\ map row_id added = consecutive_from (next_rowid d) (List.length added).
Proof.
  revert d. induction evs as [|ev evs IH]; intros d.
  - exists []. unfold db_after, effects. rewrite serve_nil. simpl.
    now rewrite app_nil_r.
  - rewrite db_after_serve_cons, effects_serve_cons, broadcasts_app.
    destruct (handle_cases ev d) as [[Ed Eb] | [msg [t [Ed Eb]]]];
      rewrite Ed, Eb.
    + apply IH.
    + destruct (IH (mkDatabase (messages d ++ [mkRow (next_rowid d) t msg])
                               (next_rowid d))) as [added (E1 & E2 & E3)].
      rewrite next_rowid_after_insert in E3. simpl in E1.
      exists (mkRow (next_rowid d) t msg :: added). repeat split.
      * rewrite E1, <- app_assoc. reflexivity.
      * simpl. now rewrite E2.
      * simpl List.length. rewrite consecutive_from_S. simpl. now f_equal.
Qed.

(** X1: when the promise of the replay read rejects, the [catch] around
    the read logs that error and the listener carries on: nothing is
    replayed, the log is untouched, both socket listeners end up registered
    and the listener returns normally. *)
Theorem rejected_replay_read_is_logged
    (socket : Socket) (e : SqliteError) (d : Database) :
  recovered socket = false ->
  run (on_connection socket (Some (ReadRejects e))) d
  = (inr tt,
     mkWorld d [ConsoleLog ("New client connected: " ++ sid socket);
                SocketOn (sid socket) "chat message";
                ConsoleError "Error recovering messages:" e;
                SocketOn (sid socket) "disconnect"])
  /\ replayed (effects (on_connection socket (Some (ReadRejects e))) d) = [].
Proof.
  intros H.
  pose proof (on_connection_run socket (Some e) d) as E. simpl option_map in E.
  unfold effects. rewrite E. unfold connection_effects. rewrite H. simpl.
  split; reflexivity.
Qed.

Lemma rejected_replay_read_is_logged_witness :
  recovered alice = false
  /\ replayed (effects (on_connection alice
                          (Some (ReadRejects (mkError 10 "SQLITE_IOERR"))))
                 three_messages) = [].
Proof.
  split; [reflexivity|].
  exact (proj2 (rejected_replay_read_is_logged alice (mkError 10 "SQLITE_IOERR")
                  three_messages eq_refl)).
Defined.

(** X2: every submitted message is either acknowledged or logged, exactly
    one of the two and exactly once; it is broadcast at most once, and it is
    broadcast exactly when its row is stored. *)
Theorem acknowledged_or_logged_once
    (socket : Socket) (fault : option SqliteError) (msg t : string) (d : Database) :
  let tr := effects (chat_message socket fault msg t) d in
  let d' := db_after (chat_message socket fault msg t) d in
  (List.length (filter is_callback tr) + List.length (filter is_logged_error tr)
   = 1)%nat
  /\ ((d' = d /\ broadcasts tr = [])
      \/ (messages d' = messages d ++ [mkRow (next_rowid d) t msg]
          /\ broadcasts tr = [(msg, next_rowid d)])).
Proof.
  intros tr d'. subst tr d'. unfold effects, db_after.
  destruct (chat_message_cases socket fault msg t d)
    as [E | [[e (_ & _ & E)] | (_ & _ & E)]]; rewrite E; simpl;
    (split; [reflexivity|]); [left | left | right]; now split.
Qed.

(** X3: over any run of events the table only grows at its end: the rows
    it held stay in place, and the rows added are exactly the messages the
    run broadcast, in the same order with the same sequence numbers; these
    are consecutive from the first free rowid, so none repeats an id the log
    already held. *)
Theorem broadcasts_are_stored_rows (evs : list Event) (d : Database) :
  let tr := effects (serve evs) d in
  let d' := db_after (serve evs) d in
  firstn (List.length (messages d)) (messages d') = messages d
  /\ pairs_of (skipn (List.length (messages d)) (messages d')) = broadcasts tr
  /\ map snd (broadcasts tr)
     = consecutive_from (next_rowid d) (List.length (broadcasts tr))
  /\ (forall m q r, In (m, q) (broadcasts tr) -> In r (messages d) -> row_id r < q).
Proof.
  intros tr d'. subst tr d'.
  destruct (serve_added evs d) as [added (E1 & E2 & E3)]. rewrite E1.
  rewrite firstn_app, firstn_all, Nat.sub_diag, skipn_app, skipn_all, Nat.sub_diag.
  simpl. rewrite app_nil_r.
  assert (E4 : map snd (broadcasts (effects (serve evs) d))
               = consecutive_from (next_rowid d)
                   (List.length (broadcasts (effects (serve evs) d)))).
  { rewrite <- E2. unfold pairs_of. rewrite map_map, length_map. simpl. exact E3. }
  repeat split; try assumption.
  intros m q r Hin Hr. apply next_rowid_above in Hr.
  assert (Hq : In q (map snd (broadcasts (effects (serve evs) d))))
    by (apply in_map_iff; now exists (m, q)).
  rewrite E4 in Hq.
  pose proof (consecutive_from_lower (next_rowid d)
                (List.length (broadcasts (effects (serve evs) d)))) as Hl.
  rewrite Forall_forall in Hl. specialize (Hl _ Hq). simpl in Hl. lia.
Qed.

(** ** Invariants of the log over whole runs *)

Lemma reachable_serve evs d : reachable d -> reachable (db_after (serve evs) d).
Proof.
  revert d. induction evs as [|ev evs IH]; intros d H; [assumption|].
  rewrite db_after_serve_cons. apply IH.
  destruct ev as [socket fault msg t | socket read_fault]; simpl.
  - rewrite db_after_chat_message. now constructor.
  - unfold db_after. now rewrite on_connection_run.
Qed.

Lemma has_client_offset_serve evs d t :
  has_client_offset t (messages d) = true ->
  has_client_offset t (messages (db_after (serve evs) d)) = true.
Proof.
  intros H. destruct (serve_appends evs d) as [added [E _]].
  now rewrite E, has_client_offset_app, H.
Qed.

Lemma submitted_token_stored evs d socket msg t :
  In (ChatMessage socket None msg t) evs ->
  has_client_offset t (messages (db_after (serve evs) d)) = true.
Proof.
  revert d. induction evs as [|ev evs IH]; intros d Hin; [contradiction|].
  rewrite db_after_serve_cons. destruct Hin as [-> | Hin].
  - apply has_client_offset_serve. simpl. rewrite db_after_chat_message.
    apply has_client_offset_after_insert.
  - now apply IH.
Qed.

Lemma rows_with_token_at_most_one t d :
  tokens_unique d -> (List.length (rows_with_token t d) <= 1)%nat.
Proof.
  intros H. destruct (has_client_offset t (messages d)) eqn:E.
  - rewrite rows_with_token_one by assumption. lia.
  - unfold rows_with_token. rewrite filter_absent_token; [simpl; lia|].
    intros Hin. apply has_client_offset_In in Hin. congruence.
Qed.

(** X4: whatever a worker serves on a log the program produced, no token
    ever has two rows, and a token submitted in the run on a statement that
    met no fault has exactly one row afterwards, however often it was sent. *)
Theorem one_row_per_token
    (evs : list Event) (d : Database) (socket : Socket) (msg t : string) :
  reachable d ->
  In (ChatMessage socket None msg t) evs ->
  let d' := db_after (serve evs) d in
  (forall t', (List.length (rows_with_token t' d') <= 1)%nat)
  /\ List.length (rows_with_token t d') = 1%nat.
Proof.
  intros Hr Hin d'.
  assert (Hu : tokens_unique d')
    by (apply reachable_invariant; now apply reachable_serve).
  split.
  - intros t'. now apply rows_with_token_at_most_one.
  - apply rows_with_token_one; [assumption|].
    now apply (submitted_token_stored evs d socket msg t).
Qed.

Lemma one_row_per_token_witness :
  reachable three_messages
  /\ List.length
       (rows_with_token "t1"
          (db_after (serve [ChatMessage alice None "hi" "t1";
                            ChatMessage bob None "hi again" "t1"]) three_messages))
     = 1%nat.
Proof.
  assert (R : reachable three_messages)
    by (apply reachable_submit_all; constructor).
  split; [exact R|].
  apply (one_row_per_token _ three_messages alice "hi" "t1" R). now left.
Defined.

Lemma consecutive_from_snoc start n :
  consecutive_from start (S n) = consecutive_from start n ++ [start + Z.of_nat n].
Proof. unfold consecutive_from. now rewrite seq_S, map_app. Qed.

Lemma max_rowid_le_bound rows b :
  0 <= b -> Forall (fun r => 0 < row_id r <= b) rows -> max_rowid rows <= b.
Proof. intros Hb. induction 1 as [|r rows Hr _ IH]; simpl; lia. Qed.

Lemma next_rowid_reachable d :
  reachable d -> next_rowid d = sqlite_sequence d + 1.
Proof.
  intros H. destruct (reachable_invariant d H) as (_ & _ & Hb & H0).
  pose proof (max_rowid_le_bound _ _ H0 Hb).
  pose proof (max_rowid_nonneg (messages d)). unfold next_rowid. lia.
Qed.

Lemma reachable_dense d :
  reachable d ->
  map row_id (messages d) = consecutive_from 1 (List.length (messages d))
  /\ sqlite_sequence d = Z.of_nat (List.length (messages d)).
Proof.
  induction 1 as [|d fault msg t Hr [IH1 IH2]]; [now split|].
  destruct (insert_message_cases fault msg t d) as [[e ->] | [_ ->]];
    [now split|].
  pose proof (next_rowid_reachable d Hr) as Hn.
  cbn [snd messages sqlite_sequence].
  rewrite map_app, length_app, Nat.add_1_r, consecutive_from_snoc, IH1.
  cbn [map row_id List.length]. rewrite Hn, IH2.
  split; [f_equal; f_equal; lia | lia].
Qed.

(** X5: in every log the program produced the k-th row carries id k, and
    the [AUTOINCREMENT] counter equals the number of rows; so the next id
    handed out is the row count plus one. *)
Theorem ids_are_row_numbers (d : Database) :
  reachable d ->
  map row_id (messages d) = consecutive_from 1 (List.length (messages d))
  /\ sqlite_sequence d = Z.of_nat (List.length (messages d))
  /\ next_rowid d = Z.of_nat (List.length (messages d)) + 1.
Proof.
  intros H. destruct (reachable_dense d H) as [H1 H2].
  repeat split; try assumption.
  rewrite (next_rowid_reachable d H). lia.
Qed.

Lemma ids_are_row_numbers_witness :
  reachable three_messages /\ next_rowid three_messages = 4.
Proof.
  assert (R : reachable three_messages)
    by (apply reachable_submit_all; constructor).
  split; [exact R|].
  exact (proj2 (proj2 (ids_are_row_numbers three_messages R))).
Defined.

(** ** Replay as a suffix of the log *)

Lemma filter_after_consecutive rows start o :
  map row_id rows = consecutive_from start (List.length rows) ->
  filter (fun r => o <? row_id r) rows = skipn (Z.to_nat (o - start + 1)) rows.
Proof.
  revert start. induction rows as [|r rows IH]; intros start H.
  - now rewrite skipn_nil.
  - simpl List.length in H. rewrite consecutive_from_S in H. simpl in H.
    injection H as Hr Hrest. specialize (IH (start + 1) Hrest).
    simpl filter. rewrite Hr, IH.
    destruct (o <? start) eqn:E.
    + apply Z.ltb_lt in E.
      replace (Z.to_nat (o - (start + 1) + 1)) with O by lia.
      replace (Z.to_nat (o - start + 1)) with O by lia. reflexivity.
    + apply Z.ltb_ge in E.
      replace (Z.to_nat (o - start + 1)) with (S (Z.to_nat (o - (start + 1) + 1)))
        by lia.
      reflexivity.
Qed.

(** X6: on a log the program produced, the replay of a not-recovered
    connection is the log without its first [serverOffset] rows: the whole
    log for an offset that is absent, zero or negative, nothing for an offset
    at or past the last id, and otherwise as many events as the log has rows
    beyond the offset. *)
Theorem replay_drops_first_rows (socket : Socket) (d : Database) :
  reachable d ->
  recovered socket = false ->
  let o := offset_or_zero (serverOffset socket) in
  let replay := replayed (effects (on_connection socket None) d) in
  replay = skipn (Z.to_nat o) (pairs_of (messages d))
  /\ List.length replay = (List.length (messages d) - Z.to_nat o)%nat
  /\ (o <= 0 -> replay = pairs_of (messages d))
  /\ (sqlite_sequence d <= o -> replay = []).
Proof.
  intros Hr Hrec o replay.
  destruct (reachable_dense d Hr) as [Hd Hs].
  assert (E : replay = skipn (Z.to_nat o) (pairs_of (messages d))).
  { subst replay. rewrite replayed_on_connection by assumption. fold o.
    rewrite (filter_after_consecutive _ 1 o Hd).
    replace (o - 1 + 1) with o by lia. unfold pairs_of. now rewrite skipn_map. }
  split; [exact E|]. rewrite E. repeat split.
  - unfold pairs_of. now rewrite length_skipn, length_map.
  - intros Ho. now replace (Z.to_nat o) with O by lia.
  - intros Ho. apply skipn_all2. unfold pairs_of. rewrite length_map. lia.
Qed.

Lemma replay_drops_first_rows_witness :
  reachable three_messages /\ recovered bob = false
  /\ replayed (effects (on_connection bob None) three_messages)
     = skipn 1 (pairs_of (messages three_messages)).
Proof.
  assert (R : reachable three_messages)
    by (apply reachable_submit_all; constructor).
  split; [exact R|]. split; [reflexivity|].
  exact (proj1 (replay_drops_first_rows bob three_messages R eq_refl)).
Defined.

(** ** What a session receives over a run *)

Lemma session_id_deliver e s : session_id (deliver e s) = session_id s.
Proof.
  destruct e; simpl; try reflexivity;
    match goal with |- context [String.eqb ?a ?b] => now destruct (String.eqb a b) end.
Qed.

Lemma session_after_cons e tr s :
  session_after (e :: tr) s = session_after tr (deliver e s).
Proof. reflexivity. Qed.

Lemma session_after_concat tr tr' s :
  session_after (tr ++ tr') s = session_after tr' (session_after tr s).
Proof. unfold session_after. apply fold_left_app. Qed.

Lemma delivered_to_app to tr tr' :
  delivered_to to (tr ++ tr') = delivered_to to tr ++ delivered_to to tr'.
Proof. unfold delivered_to. apply flat_map_app. Qed.

Lemma inbox_session_after tr s :
  inbox (session_after tr s) = inbox s ++ delivered_to (session_id s) tr.
Proof.
  revert s. induction tr as [|e tr IH]; intros s.
  - simpl. now rewrite app_nil_r.
  - rewrite session_after_cons, IH, session_id_deliver.
    change (e :: tr) with ([e] ++ tr). rewrite delivered_to_app, app_assoc. f_equal.
    destruct e; simpl; rewrite ?app_nil_r; try reflexivity;
      match goal with
      | |- context [String.eqb ?a ?b] =>
          destruct (String.eqb a b); simpl; now rewrite ?app_nil_r
      end.
Qed.

Lemma acknowledged_app to tr tr' :
  acknowledged to (tr ++ tr') = (acknowledged to tr + acknowledged to tr')%nat.
Proof. unfold acknowledged. now rewrite filter_app, length_app. Qed.

Lemma acks_session_after tr s :
  acks (session_after tr s) = (acks s + acknowledged (session_id s) tr)%nat.
Proof.
  revert s. induction tr as [|e tr IH]; intros s.
  - simpl. unfold acknowledged. simpl. lia.
  - rewrite session_after_cons, IH, session_id_deliver.
    change (e :: tr) with ([e] ++ tr). rewrite acknowledged_app.
    destruct e; unfold acknowledged; simpl; try lia;
      match goal with
      | |- context [String.eqb ?a ?b] => destruct (String.eqb a b); simpl; lia
      end.
Qed.

Lemma delivered_to_socket_emits socket to rows :
  delivered_to to (map (fun row => SocketEmit (sid socket) (content row) (id row)) rows)
  = if String.eqb (sid socket) to then map (fun row => (content row, id row)) rows
    else [].
Proof.
  induction rows as [|r rows IH]; simpl.
  - now destruct (String.eqb (sid socket) to).
  - unfold delivered_to in *. simpl. rewrite IH.
    now destruct (String.eqb (sid socket) to).
Qed.

Lemma delivered_to_connection socket read_fault d to :
  delivered_to to (connection_effects socket read_fault d)
  = if String.eqb (sid socket) to
    then replayed (connection_effects socket read_fault d) else [].
Proof.
  unfold connection_effects. rewrite !delivered_to_app, !replayed_app. simpl.
  rewrite app_nil_r. destruct (recovered socket); simpl.
  - now destruct (String.eqb (sid socket) to).
  - destruct read_fault as [e|]; simpl.
    + now destruct (String.eqb (sid socket) to).
    + now rewrite delivered_to_socket_emits, replayed_socket_emits, app_nil_r.
Qed.

Lemma effects_on_connection socket read_fault d :
  effects (on_connection socket (option_map ReadRejects read_fault)) d
  = connection_effects socket read_fault d.
Proof. unfold effects. now rewrite on_connection_run. Qed.

Lemma effects_on_connection_ok socket d :
  effects (on_connection socket None) d = connection_effects socket None d.
Proof. exact (effects_on_connection socket None d). Qed.

Lemma delivered_to_handle to ev d :
  connects to ev = false ->
  delivered_to to (effects (handle ev) d) = broadcasts (effects (handle ev) d).
Proof.
  destruct ev as [socket fault msg t | socket read_fault]; simpl; intros H.
  - unfold effects.
    destruct (chat_message_cases socket fault msg t d)
      as [E | [[e (_ & _ & E)] | (_ & _ & E)]]; now rewrite E.
  - now rewrite effects_on_connection, delivered_to_connection, H,
      broadcasts_connection_effects.
Qed.

Lemma delivered_to_serve to evs d :
  existsb (connects to) evs = false ->
  delivered_to to (effects (serve evs) d) = broadcasts (effects (serve evs) d).
Proof.
  revert d. induction evs as [|ev evs IH]; intros d H; [reflexivity|].
  simpl in H. apply orb_false_iff in H as [H1 H2].
  rewrite effects_serve_cons, delivered_to_app, broadcasts_app.
  now rewrite delivered_to_handle, IH.
Qed.

Lemma acknowledged_handle to ev d :
  (acknowledged to (effects (handle ev) d) <= if sends to ev then 1 else 0)%nat.
Proof.
  destruct ev as [socket fault msg t | socket read_fault]; simpl.
  - unfold effects.
    destruct (chat_message_cases socket fault msg t d)
      as [E | [[e (_ & _ & E)] | (_ & _ & E)]]; rewrite E; unfold acknowledged;
      simpl; destruct (String.eqb (sid socket) to); simpl; lia.
  - rewrite effects_on_connection. unfold connection_effects.
    rewrite !acknowledged_app. unfold acknowledged at 1 3. simpl.
    destruct (recovered socket); [unfold acknowledged; simpl; lia|].
    destruct read_fault as [e|]; [unfold acknowledged; simpl; lia|].
    unfold acknowledged.
    induction (select_after (offset_or_zero (serverOffset socket)) d); simpl; lia.
Qed.

(** The listener is its two halves, one after the other. *)
Lemma on_connection_split socket read_fault w :
  on_connection socket read_fault w
  = (connection_begin socket ;; connection_resume socket read_fault) w.
Proof.
  unfold on_connection, connection_begin, connection_resume, bind, console_log,
    socket_on, emit_effect. reflexivity.
Qed.

Lemma select_after_insert o d t msg :
  o <= sqlite_sequence d ->
  select_after o (mkDatabase (messages d ++ [mkRow (next_rowid d) t msg]) (next_rowid d))
  = select_after o d ++ [mkMessageRow (next_rowid d) msg].
Proof.
  intros H. unfold select_after. simpl. rewrite filter_app, map_app. simpl.
  replace (o <? next_rowid d) with true; [reflexivity|].
  symmetry. apply Z.ltb_lt. unfold next_rowid. lia.
Qed.

Lemma connection_begin_frame socket w :
  connection_begin socket w
  = (inr tt,
     mkWorld (db w)
       (trace w ++ [ConsoleLog ("New client connected: " ++ sid socket);
                    SocketOn (sid socket) "chat message"])).
Proof.
  destruct w as [d tr].
  unfold connection_begin, bind, console_log, socket_on, emit_effect. simpl.
  now rewrite <- app_assoc.
Qed.

Lemma connection_resume_frame socket w :
  recovered socket = false ->
  connection_resume socket None w
  = (inr tt,
     mkWorld (db w)
       (trace w
        ++ map (fun row => SocketEmit (sid socket) (content row) (id row))
               (select_after (offset_or_zero (serverOffset socket)) (db w))
        ++ [SocketOn (sid socket) "disconnect"])).
Proof.
  intros H. destruct w as [d tr].
  unfold connection_resume, bind, try_catch, db_each, socket_on, emit_effect, ret.
  rewrite H. simpl. rewrite for_each_socket_emit. simpl.
  now rewrite <- app_assoc.
Qed.

Lemma chat_message_inserted_frame socket msg t w :
  has_client_offset t (messages (db w)) = false ->
  chat_message socket None msg t w
  = (inr tt,
     mkWorld (mkDatabase (messages (db w) ++ [mkRow (next_rowid (db w)) t msg])
                         (next_rowid (db w)))
             (trace w ++ [IoEmit msg (next_rowid (db w)); Callback (sid socket)])).
Proof.
  intros H. rewrite chat_message_frame. unfold effects.
  rewrite chat_message_inserted, insert_fresh by assumption. reflexivity.
Qed.

(** What a run leaves behind when one message is stored between the arrival
    of a connection and its replay read. *)
Lemma pending_replay_run socket sender msg t d :
  recovered socket = false ->
  has_client_offset t (messages d) = false ->
  run (connection_begin socket ;; chat_message sender None msg t ;;
       connection_resume socket None) d
  = (inr tt,
     mkWorld (mkDatabase (messages d ++ [mkRow (next_rowid d) t msg]) (next_rowid d))
       ([ConsoleLog ("New client connected: " ++ sid socket);
         SocketOn (sid socket) "chat message";
         IoEmit msg (next_rowid d); Callback (sid sender)]
        ++ map (fun row => SocketEmit (sid socket) (content row) (id row))
               (select_after (offset_or_zero (serverOffset socket))
                  (mkDatabase (messages d ++ [mkRow (next_rowid d) t msg])
                              (next_rowid d)))
        ++ [SocketOn (sid socket) "disconnect"])).
Proof.
  intros Hrec Hfresh. unfold run, bind.
  rewrite connection_begin_frame. cbn [db trace app].
  rewrite chat_message_inserted_frame by assumption. cbn [db trace app].
  rewrite connection_resume_frame by assumption. cbn [db trace app].
  reflexivity.
Qed.

(** X7: a message stored while a connection's replay read is still pending
    reaches that client twice: once as the live broadcast, and once more at
    the end of the replay, which by then reads the new row too. The row
    itself is stored once. *)
Theorem message_during_pending_replay_delivered_twice
    (socket sender : Socket) (msg t : string) (d : Database) (s : Session) :
  recovered socket = false ->
  session_id s = sid socket ->
  offset_or_zero (serverOffset socket) <= sqlite_sequence d ->
  has_client_offset t (messages d) = false ->
  let run_ := connection_begin socket ;; chat_message sender None msg t ;;
              connection_resume socket None in
  inbox (session_after (effects run_ d) s)
  = inbox s ++ [(msg, next_rowid d)]
    ++ replayed (effects (on_connection socket None) d)
    ++ [(msg, next_rowid d)]
  /\ messages (db_after run_ d) = messages d ++ [mkRow (next_rowid d) t msg].
Proof.
  intros Hrec Hid Hoff Hfresh run_. subst run_.
  pose proof (pending_replay_run socket sender msg t d Hrec Hfresh) as R.
  unfold effects, db_after. rewrite R. cbn [snd db trace]. split; [|reflexivity].
  rewrite inbox_session_after, select_after_insert by assumption. f_equal.
  rewrite !delivered_to_app, delivered_to_socket_emits, Hid, String.eqb_refl.
  pose proof (effects_on_connection_ok socket d) as Eo. unfold effects in Eo.
  rewrite Eo. unfold connection_effects.
  rewrite Hrec, !replayed_app, replayed_socket_emits. simpl.
  rewrite map_app, !app_nil_r. reflexivity.
Qed.

Lemma message_during_pending_replay_delivered_twice_witness :
  recovered alice = false
  /\ session_id (mkSession "A" [] 0 []) = sid alice
  /\ offset_or_zero (serverOffset alice) <= sqlite_sequence three_messages
  /\ has_client_offset "t4" (messages three_messages) = false
  /\ inbox (session_after
              (effects (connection_begin alice ;; chat_message bob None "late" "t4" ;;
                        connection_resume alice None) three_messages)
              (mkSession "A" [] 0 []))
     = [("late", 4); ("hi", 1); ("yo", 2); ("ok", 3); ("late", 4)].
Proof.
  assert (H : offset_or_zero (serverOffset alice) <= sqlite_sequence three_messages)
    by (vm_compute; discriminate).
  split; [reflexivity|]. split; [reflexivity|]. split; [exact H|].
  split; [reflexivity|].
  etransitivity.
  - exact (proj1 (message_during_pending_replay_delivered_twice alice bob "late" "t4"
                    three_messages (mkSession "A" [] 0 []) eq_refl eq_refl H eq_refl)).
  - reflexivity.
Defined.

(** X8: a session that makes no new connection during a run receives
    exactly the rows the run stores, each once, in the order they were
    stored and with their ids, and nothing else. *)
Theorem bystander_receives_stored_rows (evs : list Event) (d : Database) (s : Session) :
  existsb (connects (session_id s)) evs = false ->
  inbox (session_after (effects (serve evs) d) s)
  = inbox s
    ++ pairs_of (skipn (List.length (messages d)) (messages (db_after (serve evs) d))).
Proof.
  intros H. rewrite inbox_session_after, delivered_to_serve by assumption.
  destruct (serve_added evs d) as [added (E1 & E2 & _)].
  now rewrite E1, skipn_app, skipn_all, Nat.sub_diag, <- E2.
Qed.

Lemma bystander_receives_stored_rows_witness :
  existsb (connects (session_id (mkSession "C" [] 0 [])))
          [ChatMessage alice None "hi" "t1"; Connection bob None;
           ChatMessage bob None "hi" "t1"; ChatMessage bob None "yo" "t2"] = false
  /\ inbox (session_after
              (effects (serve [ChatMessage alice None "hi" "t1"; Connection bob None;
                               ChatMessage bob None "hi" "t1";
                               ChatMessage bob None "yo" "t2"]) empty_db)
              (mkSession "C" [] 0 []))
     = [("hi", 1); ("yo", 2)].
Proof.
  split; [reflexivity|].
  etransitivity.
  - exact (bystander_receives_stored_rows
             [ChatMessage alice None "hi" "t1"; Connection bob None;
              ChatMessage bob None "hi" "t1"; ChatMessage bob None "yo" "t2"]
             empty_db (mkSession "C" [] 0 []) eq_refl).
  - reflexivity.
Defined.

Lemma acknowledged_serve to evs d :
  (acknowledged to (effects (serve evs) d) <= List.length (filter (sends to) evs))%nat.
Proof.
  revert d. induction evs as [|ev evs IH]; intros d.
  - unfold acknowledged. simpl. lia.
  - rewrite effects_serve_cons, acknowledged_app.
    pose proof (acknowledged_handle to ev d) as H1.
    specialize (IH (db_after (handle ev) d)). simpl filter.
    destruct (sends to ev); simpl List.length; lia.
Qed.

(** X9: over any run a session is acknowledged at most once per message it
    submitted, and never loses an acknowledgment; so a session that
    submitted nothing is never acknowledged. *)
Theorem acknowledgments_only_to_senders (evs : list Event) (d : Database) (s : Session) :
  let tr := effects (serve evs) d in
  (acks s <= acks (session_after tr s))%nat
  /\ (acks (session_after tr s)
      <= acks s + List.length (filter (sends (session_id s)) evs))%nat.
Proof.
  intros tr. rewrite acks_session_after.
  pose proof (acknowledged_serve (session_id s) evs d). fold tr in H. lia.
Qed.

Lemma session_after_replay_other socket rows s :
  String.eqb (sid socket) (session_id s) = false ->
  session_after (map (fun row => SocketEmit (sid socket) (content row) (id row)) rows) s
  = s.
Proof.
  intros H. induction rows as [|r rows IH]; [reflexivity|].
  simpl map. rewrite session_after_cons. simpl. now rewrite H.
Qed.

(** X10: a connection whose listener returns concerns the connecting
    socket only: whatever its offset and recovery flag, and whether its read
    succeeded or rejected, the listener leaves the log as it was and changes
    nothing in the session of any other socket (no event, no acknowledgment,
    no listener). *)
Theorem connection_leaves_others_alone
    (socket : Socket) (read_fault : option ReadFault) (d : Database) (s : Session) :
  outcome (on_connection socket read_fault) d = inr tt ->
  session_id s <> sid socket ->
  session_after (effects (on_connection socket read_fault) d) s = s
  /\ db_after (on_connection socket read_fault) d = d.
Proof.
  intros Hok H.
  assert (E : String.eqb (sid socket) (session_id s) = false)
    by (apply String.eqb_neq; congruence).
  assert (Hrf : exists rf, effects (on_connection socket read_fault) d
                           = connection_effects socket rf d
                           /\ db_after (on_connection socket read_fault) d = d).
  { destruct (recovered socket) eqn:Hrec.
    - exists None. unfold effects, db_after.
      rewrite on_connection_recovered by assumption. simpl.
      unfold connection_effects. now rewrite Hrec.
    - destruct read_fault as [[e | k e]|].
      + exists (Some e). unfold effects, db_after.
        pose proof (on_connection_run socket (Some e) d) as R.
        simpl option_map in R. now rewrite R.
      + unfold outcome in Hok.
        rewrite on_connection_row_error in Hok by assumption. discriminate.
      + exists None. unfold effects, db_after. now rewrite on_connection_run_ok. }
  destruct Hrf as [rf [Hrf Hd]]. split; [|exact Hd]. rewrite Hrf.
  unfold connection_effects. rewrite !session_after_concat.
  assert (E1 : session_after [ConsoleLog ("New client connected: " ++ sid socket);
                              SocketOn (sid socket) "chat message"] s = s)
    by (unfold session_after; simpl; now rewrite E).
  rewrite E1.
  assert (E2 : session_after
                 (if recovered socket then []
                  else match rf with
                       | Some e => [ConsoleError "Error recovering messages:" e]
                       | None =>
                           map (fun row =>
                                  SocketEmit (sid socket) (content row) (id row))
                               (select_after (offset_or_zero (serverOffset socket)) d)
                       end) s = s).
  { destruct (recovered socket); [reflexivity|].
    destruct rf as [e|]; [reflexivity|].
    now apply session_after_replay_other. }
  rewrite E2. unfold session_after. simpl. now rewrite E.
Qed.

Lemma connection_leaves_others_alone_witness :
  outcome (on_connection bob None) three_messages = inr tt
  /\ session_id (mkSession "A" [("hi", 1)] 1 ["chat message"]) <> sid bob
  /\ session_after (effects (on_connection bob None) three_messages)
       (mkSession "A" [("hi", 1)] 1 ["chat message"])
     = mkSession "A" [("hi", 1)] 1 ["chat message"].
Proof.
  assert (H : session_id (mkSession "A" [("hi", 1)] 1 ["chat message"]) <> sid bob)
    by (simpl; discriminate).
  split; [reflexivity|]. split; [exact H|].
  exact (proj1 (connection_leaves_others_alone bob None three_messages _ eq_refl H)).
Defined.

(** ** The primary's environment and the start of a worker *)

Lemma fork_loop_env (n : nat) (i : Z) (p : Primary) :
  env_PORT (fork_loop n i p)
  = match n with
    | O => env_PORT p
    | S k => Some (toString (3000 + (i + Z.of_nat k)))
    end.
Proof.
  revert i p. induction n as [|n IH]; intros i p; [reflexivity|].
  cbn [fork_loop]. rewrite IH. destruct n as [|k].
  - simpl. now rewrite Z.add_0_r.
  - do 3 f_equal. lia.
Qed.

(** X11: the fork loop leaves the primary's own [PORT] set to the port of
    the last worker it forked, 3000 + numCPUs - 1; with no processing unit it
    forks nothing and leaves [PORT] as it found it. *)
Theorem primary_port_after_forks (numCPUs : nat) (env : option string) :
  env_PORT (primary numCPUs env) = last (forked (primary numCPUs env)) env
  /\ env_PORT (primary numCPUs env)
     = match numCPUs with
       | O => env
       | S k => Some (toString (3000 + Z.of_nat k))
       end.
Proof.
  assert (E : env_PORT (primary numCPUs env)
              = match numCPUs with
                | O => env
                | S k => Some (toString (3000 + Z.of_nat k))
                end)
    by (unfold primary; now rewrite fork_loop_env).
  split; [|exact E]. rewrite E. unfold primary. rewrite fork_loop_forked. simpl.
  destruct numCPUs as [|k]; [reflexivity|].
  rewrite consecutive_from_snoc, map_app. simpl. now rewrite last_last.
Qed.

(** X12: a worker starts in one of two ways. If both database calls
    succeed and [PORT] reads back as a port [server.listen] accepts, [main]
    registers the route and the connection listener and calls
    [server.listen] once, on that port, and the [catch] of [main] does not
    run. Otherwise (the database cannot be opened, the table cannot be
    created, or the port is [NaN] or out of range) the [catch] logs the
    failure and exits with status 1, and the worker never listens. *)
Theorem worker_starts_or_exits
    (open_fault exec_fault : option SqliteError)
    (file : option Database) (env : option string) :
  let handle_ := fst (worker_process open_fault exec_fault file env) in
  let tr := snd (worker_process open_fault exec_fault file env) in
  (open_fault = None /\ exec_fault = None /\ valid_port (worker_port env) = true
   /\ handle_ = Some (create_table_if_not_exists file)
   /\ tr = [RouteGet "/"; IoOnConnection; ServerListen (worker_port env)])
  \/ (exists f,
        ((exists e, f = DatabaseFailure e
                    /\ (open_fault = Some e
                        \/ (open_fault = None /\ exec_fault = Some e)))
         \/ (f = BadPort (worker_port env) /\ open_fault = None /\ exec_fault = None
             /\ valid_port (worker_port env) = false))
        /\ handle_ = None
        /\ filter is_listen tr = []
        /\ filter is_exit tr = [ProcessExit 1]
        /\ In (StartupError f) tr).
Proof.
  unfold worker_process, main.
  destruct open_fault as [e|].
  { right. exists (DatabaseFailure e). simpl. repeat split; eauto. }
  destruct exec_fault as [e|].
  { right. exists (DatabaseFailure e). simpl. repeat split; eauto 6. }
  destruct (valid_port (worker_port env)) eqn:V.
  - left. simpl. repeat split.
  - right. exists (BadPort (worker_port env)). simpl. repeat split; auto 6.
Qed.

(** ** First write wins, and acknowledgments that store nothing *)

Lemma singleton_of_length_one {A} (x : A) (l : list A) :
  List.length l = 1%nat -> In x l -> l = [x].
Proof.
  destruct l as [|y [|z l]]; simpl; try discriminate.
  intros _ [-> | []]. reflexivity.
Qed.

(** X13: a stored message is never replaced: whatever is submitted later
    under the same token, by any socket and with any content, the one row of
    that token keeps the id and the content it was stored with. *)
Theorem first_submission_wins
    (evs : list Event) (d : Database) (i : Z) (t msg : string) :
  reachable d ->
  In (mkRow i t msg) (messages d) ->
  rows_with_token t (db_after (serve evs) d) = [mkRow i t msg].
Proof.
  intros Hr Hin.
  destruct (serve_appends evs d) as [added [E _]].
  assert (Hin' : In (mkRow i t msg) (messages (db_after (serve evs) d)))
    by (rewrite E; apply in_or_app; now left).
  apply singleton_of_length_one.
  - apply rows_with_token_one.
    + apply reachable_invariant. now apply reachable_serve.
    + apply has_client_offset_In.
      change t with (row_client_offset (mkRow i t msg)). now apply in_map.
  - unfold rows_with_token. apply filter_In. split; [assumption|].
    simpl. apply String.eqb_refl.
Qed.

Lemma first_submission_wins_witness :
  reachable three_messages
  /\ In (mkRow 1 "t1" "hi") (messages three_messages)
  /\ rows_with_token "t1"
       (db_after (serve [ChatMessage bob None "something else" "t1"]) three_messages)
     = [mkRow 1 "t1" "hi"].
Proof.
  assert (R : reachable three_messages)
    by (apply reachable_submit_all; constructor).
  assert (I : In (mkRow 1 "t1" "hi") (messages three_messages)) by (now left).
  split; [exact R|]. split; [exact I|].
  exact (first_submission_wins [ChatMessage bob None "something else" "t1"]
           three_messages 1 "t1" "hi" R I).
Defined.

(** X14: any rejection of the insert that carries errno 19 is answered as a
    duplicate, whether or not the token is in the log: the sender is
    acknowledged, nothing is logged or broadcast, and the log is as it was,
    so a token that was not stored before is still not stored. *)
Theorem constraint_error_acknowledged_without_store
    (socket : Socket) (e : SqliteError) (msg t : string) (d : Database) :
  errno e = 19 ->
  run (chat_message socket (Some e) msg t) d
  = (inr tt, mkWorld d [Callback (sid socket)])
  /\ has_client_offset t (messages (db_after (chat_message socket (Some e) msg t) d))
     = has_client_offset t (messages d).
Proof.
  intros H.
  assert (E : run (chat_message socket (Some e) msg t) d
              = (inr tt, mkWorld d [Callback (sid socket)]))
    by (rewrite chat_message_fault, H; reflexivity).
  split; [exact E|]. unfold db_after. now rewrite E.
Qed.

Lemma constraint_error_acknowledged_without_store_witness :
  errno (mkError 19 "SQLITE_CONSTRAINT: CHECK constraint failed") = 19
  /\ has_client_offset "t9"
       (messages (db_after (chat_message alice
                              (Some (mkError 19 "SQLITE_CONSTRAINT: CHECK constraint failed"))
                              "hi" "t9") three_messages))
     = has_client_offset "t9" (messages three_messages).
Proof.
  split; [reflexivity|].
  exact (proj2 (constraint_error_acknowledged_without_store alice
                  (mkError 19 "SQLITE_CONSTRAINT: CHECK constraint failed")
                  "hi" "t9" three_messages eq_refl)).
Defined.
